(** * The hash-based SPA router of the Kattali Textile site

    A shallow embedding of [public/scripts/router.js] (class [Router]) and of
    the two configuration values it reads from [config.js], followed by the
    properties of navigation, fragment caching and prefetching.

    The router is single-threaded.  Its [async] methods are modelled twice:
    first as run to their end, one call after the other, which is what one
    call does when nothing else happens while it waits; then with their
    waits for the network and for the transition timer, where the calls
    started by other events run in between.  What the router cannot decide
    itself is supplied by an environment: the answers of the network and the
    failures of the collaborators it calls into. *)

From Stdlib Require Import String Ascii List Sorted Lia.
From stdpp Require Import base option gmap strings list sorting.

Open Scope string_scope.
Open Scope list_scope.

(** ** Routes *)

(** [{ path, component, title }]: the objects of [defineRoutes]. *)
Record Route := mkRoute {
  path : string;
  component : string;
  title : string
}.

(** The array literal of [defineRoutes], in source order. *)
Definition route_list : list Route := [
  mkRoute "" "home" "Home";
  mkRoute "home" "home" "Home";
  mkRoute "about" "about" "About Us";
  mkRoute "sustainability" "sustainability" "Sustainability";
  mkRoute "certifications" "certifications" "Certifications";
  mkRoute "clients" "clients" "Our Clients";
  mkRoute "impact" "impact" "Impact Stories";
  mkRoute "careers" "careers" "Careers";
  mkRoute "news" "news" "News & Updates";
  mkRoute "contact" "contact" "Contact Us";
  mkRoute "rfq" "rfq" "Request for Quote";
  mkRoute "investors" "investors" "Investor Relations";
  mkRoute "privacy" "privacy" "Privacy Policy";
  mkRoute "terms" "terms" "Terms of Service"
].

(** [routes.forEach(route => this.routes.set(route.path, route))] on the
    empty [Map] of the constructor.  The map is written nowhere else, so it
    is a constant of the model. *)
Definition defineRoutes : gmap string Route :=
  foldl (fun m r => <[path r := r]> m) ∅ route_list.

(** [this.routes.get(path) || this.routes.get('home')]; [None] is
    [undefined]. *)
Definition resolve (p : string) : option Route :=
  match defineRoutes !! p with
  | Some r => Some r
  | None => defineRoutes !! "home"
  end.

(** ** Values thrown and the environment *)

Inductive exn :=
| LoadFailed (status : nat)   (* new Error(`Failed to load component: ${status}`) *)
| Rejected (reason : string)  (* thrown or rejected by a collaborator *)
| NullDeref (what : string).  (* TypeError: property access on null/undefined *)

(** What [fetch] resolves or rejects with; [body = None] is a
    [response.text()] that rejects. *)
Inductive fetch_result :=
| NetworkError (reason : string)
| Response (status : nat) (body : option string).

(** [response.ok]: a status in the range 200-299. *)
Definition ok (status : nat) : bool :=
  (200 <=? status)%nat && (status <=? 299)%nat.

(** The hooks [initializePageComponents] dispatches to. *)
Inductive hook :=
| initializeKineticText
| initializeScrollAnimations
| initializeHomeComponents
| initializeContactForm
| initializeRFQForm
| initializeInvestorCharts
| initializeCareersComponents
| initializeNewsComponents
| initializeGenericComponents
| initializeTiltCards.

(** The calls of [loadRoute] that leave the router: DOM helpers, hooks and
    the analytics tracker. *)
Inductive collaborator :=
| updatePageTitle_dom
| updateActiveNavigation_dom
| triggerContentAnimations_dom
| manageFocus_dom
| hook_call (h : hook)
| gtag_call.

Record Env := mkEnv {
  (** the answer to the n-th request of the session, by URL *)
  network : nat -> string -> fetch_result;
  (** [Some e]: this collaborator throws [e] when called *)
  raises : collaborator -> option exn;
  (** [typeof gtag === 'function'] *)
  gtag_defined : bool
}.

(** ** Observable effects and the state *)

Inductive event :=
| ELoading (display : string)          (* loadingElement.style.display = ... *)
| EFetch (url : string)                (* fetch(url) *)
| ECacheSet (c : string)               (* this.cache.set(c, content) *)
| EConsoleError (label : string) (e : exn)
| ETitle (fullTitle : string)          (* document.title = ... *)
| EActiveNav (p : string)              (* 'active' class moved to the links of p *)
| EFadeOut
| EInnerHTML (html : string)           (* appContainer.innerHTML = ... *)
| EContentAnimations
| EFadeIn
| EFocus
| ECurrentRoute (p : string)           (* this.currentRoute = ... *)
| EHook (h : hook)
| EPageView (t : string)               (* gtag('config', id, { page_title: t, ... }) *)
| EPrefetched (p : string)             (* this.prefetchedRoutes.add(p) *)
| EHash (h : string).                  (* window.location.hash = ... *)

(** The [#app] element, as far as the router writes it. *)
Record Container := mkContainer {
  innerHTML : string;
  opacity : string;
  transform : string
}.

Record World := mkWorld {
  currentRoute : option string;        (* null, or a route path *)
  cache : gmap string string;          (* component -> fetched markup *)
  prefetchedRoutes : gset string;
  loadingElement : option string;      (* None: no .loading-skeleton; else its display *)
  appContainer : option Container;     (* None: no #app element *)
  documentTitle : string;
  locationHash : string;
  requests : nat;                      (* fetches issued so far *)
  trace : list event                   (* effects so far, oldest first *)
}.

Definition set_currentRoute (v : option string) (w : World) : World :=
  mkWorld v (cache w) (prefetchedRoutes w) (loadingElement w) (appContainer w)
    (documentTitle w) (locationHash w) (requests w) (trace w).
Definition set_cache (v : gmap string string) (w : World) : World :=
  mkWorld (currentRoute w) v (prefetchedRoutes w) (loadingElement w) (appContainer w)
    (documentTitle w) (locationHash w) (requests w) (trace w).
Definition set_prefetchedRoutes (v : gset string) (w : World) : World :=
  mkWorld (currentRoute w) (cache w) v (loadingElement w) (appContainer w)
    (documentTitle w) (locationHash w) (requests w) (trace w).
Definition set_loadingElement (v : option string) (w : World) : World :=
  mkWorld (currentRoute w) (cache w) (prefetchedRoutes w) v (appContainer w)
    (documentTitle w) (locationHash w) (requests w) (trace w).
Definition set_appContainer (v : option Container) (w : World) : World :=
  mkWorld (currentRoute w) (cache w) (prefetchedRoutes w) (loadingElement w) v
    (documentTitle w) (locationHash w) (requests w) (trace w).
Definition set_documentTitle (v : string) (w : World) : World :=
  mkWorld (currentRoute w) (cache w) (prefetchedRoutes w) (loadingElement w) (appContainer w)
    v (locationHash w) (requests w) (trace w).
Definition set_locationHash (v : string) (w : World) : World :=
  mkWorld (currentRoute w) (cache w) (prefetchedRoutes w) (loadingElement w) (appContainer w)
    (documentTitle w) v (requests w) (trace w).
Definition set_requests (v : nat) (w : World) : World :=
  mkWorld (currentRoute w) (cache w) (prefetchedRoutes w) (loadingElement w) (appContainer w)
    (documentTitle w) (locationHash w) v (trace w).
Definition set_trace (v : list event) (w : World) : World :=
  mkWorld (currentRoute w) (cache w) (prefetchedRoutes w) (loadingElement w) (appContainer w)
    (documentTitle w) (locationHash w) (requests w) v.

(** The fields the constructor sets, given what the two DOM queries of
    [init] find. *)
Definition newRouter (loading : option string) (app : option Container)
    (hash : string) (doc_title : string) : World :=
  mkWorld None ∅ ∅ loading app doc_title hash 0 [].

(** ** A monad for JavaScript completions over the world *)

Inductive completion (A : Type) :=
| Normal (a : A)
| Throw (e : exn).
Arguments Normal {A} a.
Arguments Throw {A} e.

Definition Js (A : Type) : Type := World -> completion A * World.

Definition ret {A} (a : A) : Js A := fun w => (Normal a, w).
Definition throw {A} (e : exn) : Js A := fun w => (Throw e, w).
Definition bind {A B} (m : Js A) (k : A -> Js B) : Js B :=
  fun w => match m w with
           | (Normal a, w1) => k a w1
           | (Throw e, w1) => (Throw e, w1)
           end.

Declare Scope js_scope.
Delimit Scope js_scope with js.
Notation "x <- m ;; k" := (bind m (fun x => k))
  (at level 100, m at next level, right associativity) : js_scope.
Notation "m ;;; k" := (bind m (fun _ => k))
  (at level 100, right associativity) : js_scope.

(** [try { body } catch (e) { handler e }] *)
Definition try_catch {A} (body : Js A) (handler : exn -> Js A) : Js A :=
  fun w => match body w with
           | (Normal a, w1) => (Normal a, w1)
           | (Throw e, w1) => handler e w1
           end.

(** [try { body } finally { fin }]: [fin] runs on both completions; its own
    throw replaces the completion of [body]. *)
Definition try_finally {A} (body : Js A) (fin : Js unit) : Js A :=
  fun w => let (c, w1) := body w in
           match fin w1 with
           | (Normal _, w2) => (c, w2)
           | (Throw e, w2) => (Throw e, w2)
           end.

Definition modify (f : World -> World) : Js unit := fun w => (Normal tt, f w).
Definition emit (e : event) : Js unit :=
  modify (fun w => set_trace (trace w ++ [e]) w).
Definition get {A} (f : World -> A) : Js A := fun w => (Normal (f w), w).

(** A call that leaves the router: it throws when the environment says so. *)
Definition call (env : Env) (c : collaborator) : Js unit :=
  match raises env c with
  | Some e => throw e
  | None => ret tt
  end.

(** ** Strings *)

(** The double quote character, for the markup below. *)
Definition dq : string := String (ascii_of_nat 34) EmptyString.

(** [s.replace(pat, rep)] for a string pattern: the first occurrence only.
    (No replacement string of the router contains a [$] pattern.) *)
Fixpoint replace_first (pat rep s : string) : string :=
  if String.prefix pat s
  then rep +:+ String.substring (String.length pat)
                 (String.length s - String.length pat) s
  else match s with
       | EmptyString => EmptyString
       | String c s' => String c (replace_first pat rep s')
       end.

(** [path.replace(/^\/+/, '')] *)
Fixpoint strip_leading_slashes (s : string) : string :=
  match s with
  | String "/"%char s' => strip_leading_slashes s'
  | _ => s
  end.

(** [s.slice(1)] *)
Definition slice1 (s : string) : string :=
  match s with
  | EmptyString => EmptyString
  | String _ s' => s'
  end.

(** ** Configuration ([config.js]) *)

(** [CONFIG.SEO.TITLE_TEMPLATE] and [CONFIG.FEATURES.ANALYTICS];
    [initializeConfig] overrides neither. *)
Definition SEO_TITLE_TEMPLATE : string := "%s | Kattali Textile Ltd.".
Definition FEATURES_ANALYTICS : bool := true.

(** [`partials/${component}.html`] *)
Definition partial_url (c : string) : string := "partials/" +:+ c +:+ ".html".

(** [getConfig('SEO.TITLE_TEMPLATE', ...).replace('%s', title)] *)
Definition fullTitle (t : string) : string := replace_first "%s" t SEO_TITLE_TEMPLATE.

(** [`Error loading component ${component}:`] *)
Definition component_error_label (c : string) : string :=
  "Error loading component " +:+ c +:+ ":".

(** [normalizedPath ? `#/${normalizedPath}` : '#/'] *)
Definition hash_of (normalizedPath : string) : string :=
  if decide (normalizedPath = "") then "#/" else "#/" +:+ normalizedPath.

(** ** The methods of [Router] *)

Section Router.
Context (env : Env).
Open Scope js_scope.

(** [showLoading()] and [hideLoading()], router.js 530-544: they write the
    element only if the page has one. *)
Definition showLoading : Js unit :=
  el <- get loadingElement ;;
  match el with
  | Some _ => modify (set_loadingElement (Some "block")) ;;; emit (ELoading "block")
  | None => ret tt
  end.

Definition hideLoading : Js unit :=
  el <- get loadingElement ;;
  match el with
  | Some _ => modify (set_loadingElement (Some "none")) ;;; emit (ELoading "none")
  | None => ret tt
  end.

(** The markup of [getErrorContent(component)], router.js 648-657. *)
Definition getErrorContent (c : string) : string :=
  "
      <div class=" +:+ dq +:+ "error-content" +:+ dq +:+ ">
        <h2>Content Unavailable</h2>
        <p>Sorry, we're having trouble loading the " +:+ c +:+ " page content.</p>
        <p>Please check your internet connection and try again.</p>
        <button onclick=" +:+ dq +:+ "location.reload()" +:+ dq +:+ " class="
   +:+ dq +:+ "btn btn-secondary" +:+ dq +:+ ">Retry</button>
      </div>
    ".

(** The markup [handleRouteError] writes. *)
Definition errorContent : string :=
  "
      <div class=" +:+ dq +:+ "error-page" +:+ dq +:+ ">
        <h1>Oops! Something went wrong</h1>
        <p>We're having trouble loading this page. Please try again later.</p>
        <button onclick=" +:+ dq +:+ "location.reload()" +:+ dq +:+ " class="
   +:+ dq +:+ "btn btn-primary" +:+ dq +:+ ">Refresh Page</button>
      </div>
    ".

(** [await fetch(url)]: one more request; a network error rejects. *)
Definition fetch (url : string) : Js (nat * option string) :=
  n <- get requests ;;
  modify (set_requests (S n)) ;;;
  emit (EFetch url) ;;;
  match network env n url with
  | NetworkError reason => throw (Rejected reason)
  | Response status body => ret (status, body)
  end.

(** [await response.text()] *)
Definition text (body : option string) : Js string :=
  match body with
  | Some s => ret s
  | None => throw (Rejected "body stream")
  end.

(** [loadComponent(component)], router.js 180-203: the cache first, else one
    request; every failure is caught, logged and answered with the fallback
    markup. *)
Definition loadComponent (c : string) : Js string :=
  cached <- get (fun w => cache w !! c) ;;
  match cached with
  | Some content => ret content
  | None =>
      try_catch
        (response <- fetch (partial_url c) ;;
         (if ok (fst response) then ret tt else throw (LoadFailed (fst response))) ;;;
         content <- text (snd response) ;;
         modify (fun w => set_cache (<[c := content]> (cache w)) w) ;;;
         emit (ECacheSet c) ;;;
         ret content)
        (fun error =>
           emit (EConsoleError (component_error_label c) error) ;;;
           ret (getErrorContent c))
  end.

(** [prefetchRoute(path)], router.js 209-225. *)
Definition prefetchRoute (p : string) : Js unit :=
  seen <- get prefetchedRoutes ;;
  if decide (p ∈ seen) then ret tt
  else
    match defineRoutes !! p with
    | None => ret tt
    | Some route =>
        try_catch
          (loadComponent (component route) ;;;
           modify (fun w => set_prefetchedRoutes ({[p]} ∪ prefetchedRoutes w) w) ;;;
           emit (EPrefetched p))
          (fun error => emit (EConsoleError "Error prefetching route:" error))
    end.

(** [renderContent(content)], router.js 247-271: nothing without a
    container; else fade out, swap the content, animate, fade in, focus. *)
Definition renderContent (content : string) : Js unit :=
  app <- get appContainer ;;
  match app with
  | None => ret tt
  | Some c =>
      modify (set_appContainer (Some (mkContainer (innerHTML c) "0" "translateY(20px)"))) ;;;
      emit EFadeOut ;;;
      modify (set_appContainer (Some (mkContainer content "0" "translateY(20px)"))) ;;;
      emit (EInnerHTML content) ;;;
      call env triggerContentAnimations_dom ;;;
      emit EContentAnimations ;;;
      modify (set_appContainer (Some (mkContainer content "1" "translateY(0)"))) ;;;
      emit EFadeIn ;;;
      call env manageFocus_dom ;;;
      emit EFocus
  end.

(** [updatePageTitle(title)], router.js 277-294.  Its configuration and DOM
    queries are one collaborator; the meta description and the canonical
    link it also writes are not part of the state. *)
Definition updatePageTitle (t : string) : Js unit :=
  call env updatePageTitle_dom ;;;
  modify (set_documentTitle (fullTitle t)) ;;;
  emit (ETitle (fullTitle t)).

(** [updateActiveNavigation(path)], router.js 300-310. *)
Definition updateActiveNavigation (p : string) : Js unit :=
  call env updateActiveNavigation_dom ;;;
  emit (EActiveNav p).

Definition run_hook (h : hook) : Js unit :=
  call env (hook_call h) ;;; emit (EHook h).

(** The [switch (component)] of [initializePageComponents]. *)
Definition page_hook (c : string) : hook :=
  if decide (c = "home") then initializeHomeComponents
  else if decide (c = "contact") then initializeContactForm
  else if decide (c = "rfq") then initializeRFQForm
  else if decide (c = "investors") then initializeInvestorCharts
  else if decide (c = "careers") then initializeCareersComponents
  else if decide (c = "news") then initializeNewsComponents
  else initializeGenericComponents.

(** [initializePageComponents(component)], router.js 316-350: two hooks for
    every page, the hook of the page, then the tilt cards. *)
Definition initializePageComponents (c : string) : Js unit :=
  run_hook initializeKineticText ;;;
  run_hook initializeScrollAnimations ;;;
  run_hook (page_hook c) ;;;
  run_hook initializeTiltCards.

(** [trackPageView(route)], router.js 679-686. *)
Definition trackPageView (route : Route) : Js unit :=
  if FEATURES_ANALYTICS && gtag_defined env
  then call env gtag_call ;;; emit (EPageView (title route))
  else ret tt.

(** [handleRouteError(error)], router.js 629-641: the container is written
    without a test for its presence. *)
Definition handleRouteError (error : exn) : Js unit :=
  emit (EConsoleError "Route error:" error) ;;;
  app <- get appContainer ;;
  match app with
  | None => throw (NullDeref "appContainer")
  | Some c =>
      modify (set_appContainer (Some (mkContainer errorContent (opacity c) (transform c)))) ;;;
      emit (EInnerHTML errorContent)
  end.

(** The body of the [try] block of [loadRoute], router.js 146-165. *)
Definition loadRoute_try (route : Route) : Js unit :=
  content <- loadComponent (component route) ;;
  updatePageTitle (title route) ;;;
  updateActiveNavigation (path route) ;;;
  renderContent content ;;;
  modify (set_currentRoute (Some (path route))) ;;;
  emit (ECurrentRoute (path route)) ;;;
  initializePageComponents (component route) ;;;
  trackPageView route.

(** Its [catch] block, router.js 167-169. *)
Definition loadRoute_catch (error : exn) : Js unit :=
  emit (EConsoleError "Error loading route:" error) ;;;
  handleRouteError error.

(** [loadRoute(path)], router.js 135-173.  A route that is [undefined]
    would make [route.path] throw before the [try]. *)
Definition loadRoute (p : string) : Js unit :=
  match resolve p with
  | None => throw (NullDeref "route")
  | Some route =>
      current <- get currentRoute ;;
      if decide (current = Some (path route)) then ret tt
      else
        showLoading ;;;
        try_finally (try_catch (loadRoute_try route) loadRoute_catch) hideLoading
  end.

(** [window.location.hash = h].  The browser keeps the hash percent-encoded;
    the paths of the route table need no encoding. *)
Definition setHash (h : string) : Js unit :=
  modify (set_locationHash h) ;;; emit (EHash h).

(** [navigateTo(path, pushState = true)], router.js 111-119. *)
Definition navigateTo (p : string) (pushState : bool) : Js unit :=
  (if pushState then setHash (hash_of (strip_leading_slashes p)) else ret tt) ;;;
  loadRoute (strip_leading_slashes p).

(** [handleRoute()], router.js 124-129. *)
Definition handleRoute : Js unit :=
  hash <- get (fun w => slice1 (locationHash w)) ;;
  loadRoute (if String.prefix "/" hash then slice1 hash else hash).

(** ** Sessions *)

(** What the listeners of [setupEventListeners] and the prefetch timer start. *)
Inductive action :=
| Click (p : string)          (* navigateTo(p) from a [data-route] link *)
| HashChange (hash : string)  (* the address bar changes; handleRoute() *)
| Hover (p : string).         (* prefetchRoute(p) *)

Definition step (a : action) : Js unit :=
  match a with
  | Click p => navigateTo p true
  | HashChange h => modify (set_locationHash h) ;;; handleRoute
  | Hover p => prefetchRoute p
  end.

(** A session without overlap: the actions one after the other, each call
    run to its end before the next listener fires; a rejected promise of a
    listener stops nothing.  The [hashchange] that follows the hash write of
    a click is an action of its own.  Calls that overlap are the subject of
    [run] below. *)
Fixpoint session (acts : list action) (w : World) : World :=
  match acts with
  | [] => w
  | a :: rest => session rest (snd (step a w))
  end.

End Router.

Arguments getErrorContent : simpl never.
Arguments errorContent : simpl never.
Arguments replace_first : simpl never.
Arguments partial_url : simpl never.
Arguments fullTitle : simpl never.
Arguments hash_of : simpl never.
Arguments component_error_label : simpl never.

(** ** Vocabulary of the properties *)

(** The two routes of the home page. *)
Definition home_route : Route := mkRoute "home" "home" "Home".
Definition root_route : Route := mkRoute "" "home" "Home".

(** The path [handleRoute] reads off [window.location.hash]. *)
Definition hash_path (h : string) : string :=
  if String.prefix "/" (slice1 h) then slice1 (slice1 h) else slice1 h.

(** The effects a run added to the trace. *)
Definition emitted (w w' : World) : list event :=
  drop (length (trace w)) (trace w').

(** The [try] block of [loadRoute] after its first statement, given the
    loaded content. *)
Definition after_load (env : Env) (r : Route) (content : string) : Js unit :=
  (updatePageTitle env (title r) ;;;
   updateActiveNavigation env (path r) ;;;
   renderContent env content ;;;
   modify (set_currentRoute (Some (path r))) ;;;
   emit (ECurrentRoute (path r)) ;;;
   initializePageComponents env (component r) ;;;
   trackPageView env r)%js.

(** The effects of the render phase on an existing container. *)
Definition render_events (content : string) : list event :=
  [EFadeOut; EInnerHTML content; EContentAnimations; EFadeIn; EFocus].

(** The effects of the hooks of a component, in dispatch order. *)
Definition hook_events (c : string) : list event :=
  [EHook initializeKineticText; EHook initializeScrollAnimations;
   EHook (page_hook c); EHook initializeTiltCards].

(** A fetch that fails: a network error, a status outside 200-299, or a body
    that cannot be read. *)
Definition fetch_fails (res : fetch_result) : Prop :=
  match res with
  | NetworkError _ => True
  | Response status body => ok status = false \/ body = None
  end.

(** The error [loadComponent] catches on such a fetch. *)
Definition fetch_error (res : fetch_result) : exn :=
  match res with
  | NetworkError reason => Rejected reason
  | Response status _ =>
      if ok status then Rejected "body stream" else LoadFailed status
  end.

(** No collaborator throws. *)
Definition quiet (env : Env) : Prop := forall c, raises env c = None.

(** A collaborator called before [this.currentRoute = route.path] throws:
    the title or navigation update, or, when there is a container to render
    into, the animations or the focus. *)
Definition throws_before_update (env : Env) (w : World) : bool :=
  match raises env updatePageTitle_dom, raises env updateActiveNavigation_dom with
  | None, None =>
      match appContainer w with
      | None => false
      | Some _ =>
          match raises env triggerContentAnimations_dom, raises env manageFocus_dom with
          | None, None => false
          | _, _ => true
          end
      end
  | _, _ => true
  end.

(** The phases of one [try] block. *)
Inductive phase := Load | TitleNav | Render | StateUpdate | Hooks.

Definition phase_rank (ph : phase) : nat :=
  match ph with
  | Load => 0
  | TitleNav => 1
  | Render => 2
  | StateUpdate => 3
  | Hooks => 4
  end.

(** The phase an effect of the [try] block belongs to. *)
Definition phase_of (e : event) : option phase :=
  match e with
  | EFetch _ | ECacheSet _ | EConsoleError _ _ => Some Load
  | ETitle _ | EActiveNav _ => Some TitleNav
  | EFadeOut | EInnerHTML _ | EContentAnimations | EFadeIn | EFocus => Some Render
  | ECurrentRoute _ => Some StateUpdate
  | EHook _ | EPageView _ => Some Hooks
  | ELoading _ | EPrefetched _ | EHash _ => None
  end.

(** Both effects belong to a phase, and the first one's is not the later. *)
Definition not_after (e1 e2 : event) : Prop :=
  match phase_of e1, phase_of e2 with
  | Some a, Some b => phase_rank a <= phase_rank b
  | _, _ => False
  end.

(** A relation between the world before and after, kept by a method. *)
Definition preserves (R : relation World) {A} (m : Js A) : Prop :=
  forall w, R w (snd (m w)).

(** What a session only ever adds to (cache entries, prefetched paths,
    requests, effects), what it never removes (the two DOM elements) and
    what it never does again (request a fragment that is cached). *)
Record evolves (w w' : World) : Prop := mkEvolves {
  evolves_cache : cache w ⊆ cache w';
  evolves_prefetched : prefetchedRoutes w ⊆ prefetchedRoutes w';
  evolves_requests : requests w <= requests w';
  evolves_trace : trace w `prefix_of` trace w';
  evolves_loading : is_Some (loadingElement w) <-> is_Some (loadingElement w');
  evolves_app : is_Some (appContainer w) <-> is_Some (appContainer w');
  evolves_fetches :
    forall c, is_Some (cache w !! c) -> EFetch (partial_url c) ∉ emitted w w'
}.

(** ** Sample environments and worlds *)

(** A server that answers every request with a page naming its URL. *)
Definition serving : nat -> string -> fetch_result :=
  fun _ url => Response 200 (Some ("<h1>" +:+ url +:+ "</h1>")).

(** A server that answers every request with status 500. *)
Definition failing : nat -> string -> fetch_result :=
  fun _ _ => Response 500 (Some "Internal Server Error").

(** A server that fails for the news fragment only. *)
Definition failing_for_news : nat -> string -> fetch_result :=
  fun n url => if decide (url = "partials/news.html") then failing n url else serving n url.

Definition env_ok : Env := mkEnv serving (fun _ => None) true.
Definition env_news_500 : Env := mkEnv failing_for_news (fun _ => None) true.
Definition env_500 : Env := mkEnv failing (fun _ => None) true.

(** [window.initializeCharts] throws. *)
Definition env_charts_throw : Env :=
  mkEnv serving
    (fun c => match c with
              | hook_call initializeInvestorCharts => Some (Rejected "initializeCharts")
              | _ => None
              end)
    true.

(** A fresh router on the shell page, and one on a page without [#app]. *)
Definition fresh : World :=
  newRouter (Some "none") (Some (mkContainer "" "1" "")) "" "Kattali Textile Ltd.".
Definition fresh_no_app : World :=
  newRouter (Some "none") None "" "Kattali Textile Ltd.".

(** The pages the samples start from. *)
Definition investors_route : Route := mkRoute "investors" "investors" "Investor Relations".
Definition at_root : World := snd (loadRoute env_ok "" fresh).
Definition at_home : World := snd (loadRoute env_ok "home" fresh).
Definition at_about : World := snd (loadRoute env_ok "about" fresh).

(** ** Symbolic runs *)

Ltac js_unfold :=
  unfold loadRoute_try, loadRoute_catch, handleRouteError, trackPageView,
    initializePageComponents, run_hook, updateActiveNavigation, updatePageTitle,
    renderContent, loadComponent, fetch, text, showLoading, hideLoading, setHash,
    call, try_finally, try_catch, emit, modify, get, bind, ret, throw in *.

(** Unfolds everything but [loadComponent]. *)
Ltac js_unfold_rest :=
  unfold after_load, loadRoute_catch, handleRouteError, trackPageView,
    initializePageComponents, run_hook, updateActiveNavigation, updatePageTitle,
    renderContent, showLoading, hideLoading, setHash,
    call, try_finally, try_catch, emit, modify, get, bind, ret, throw in *.

(** The scrutinee a stuck computation waits for, following control flow. *)
Ltac stuck_on t :=
  lazymatch t with
  | match ?x with _ => _ end => stuck_on x
  | (match ?x with _ => _ end) _ => stuck_on x
  | _ => constr:(t)
  end.

Ltac js_step :=
  match goal with
  | |- context [match ?x with _ => _ end] => let y := stuck_on x in destruct y
  end.

Ltac js_run := repeat (cbn; js_step); cbn.

(** The effects added between two worlds whose traces are known. *)
Ltac emitted_norm :=
  unfold emitted; cbn; rewrite <- ?app_assoc; rewrite ?drop_app_length, ?drop_all; cbn.

(** * Calls that overlap *)

(** The methods above run every [async] call to its end.  In the browser a
    call gives way at each wait for the network or for a timer, and whatever
    listener fires next runs in between: another click, the [hashchange] that
    the hash write of [navigateTo] triggers, a hover.  Here the same methods
    are written with their waits.  (An [await] of a call that returned
    without waiting resumes before any other listener runs.) *)

(** What a suspended call waits for. *)
Inductive wait :=
| WFetch (n : nat) (url : string)   (* await fetch(url): the answer to request n *)
| WText (n : nat) (url : string)    (* await response.text(): the body of that answer *)
| WTimer.                           (* await new Promise(resolve => setTimeout(resolve, ...)) *)

(** A call: finished, or waiting with what it does when it is resumed. *)
#[warnings="-register-all"] Inductive proc (A : Type) :=
| Fin (c : completion A)
| Wait (wt : wait) (resume : World -> proc A * World).
Arguments Fin {A} c.
Arguments Wait {A} wt resume.

Definition Async (A : Type) : Type := World -> proc A * World.

(** A stretch of code without a wait. *)
Definition lift {A} (m : Js A) : Async A :=
  fun w => (Fin (fst (m w)), snd (m w)).

Definition await (wt : wait) : Async unit :=
  fun w => (Wait wt (fun w' => (Fin (Normal tt), w')), w).

Fixpoint pbind {A B} (p : proc A) (k : A -> Async B) (w : World) : proc B * World :=
  match p with
  | Fin (Normal a) => k a w
  | Fin (Throw e) => (Fin (Throw e), w)
  | Wait wt r => (Wait wt (fun w' => pbind (fst (r w')) k (snd (r w'))), w)
  end.

Definition abind {A B} (m : Async A) (k : A -> Async B) : Async B :=
  fun w => pbind (fst (m w)) k (snd (m w)).

(** [try { ... await ... } catch (e) { handler e }], the handler without a
    wait. *)
Fixpoint pcatch {A} (p : proc A) (handler : exn -> Js A) (w : World) : proc A * World :=
  match p with
  | Fin (Normal a) => (Fin (Normal a), w)
  | Fin (Throw e) => lift (handler e) w
  | Wait wt r => (Wait wt (fun w' => pcatch (fst (r w')) handler (snd (r w'))), w)
  end.

Definition atry_catch {A} (m : Async A) (handler : exn -> Js A) : Async A :=
  fun w => pcatch (fst (m w)) handler (snd (m w)).

(** [try { ... await ... } finally { fin }] *)
Fixpoint pfinally {A} (p : proc A) (fin : Js unit) (w : World) : proc A * World :=
  match p with
  | Fin c =>
      match fin w with
      | (Normal _, w2) => (Fin c, w2)
      | (Throw e, w2) => (Fin (Throw e), w2)
      end
  | Wait wt r => (Wait wt (fun w' => pfinally (fst (r w')) fin (snd (r w'))), w)
  end.

Definition atry_finally {A} (m : Async A) (fin : Js unit) : Async A :=
  fun w => pfinally (fst (m w)) fin (snd (m w)).

Declare Scope async_scope.
Delimit Scope async_scope with async.
Notation "x <- m ;; k" := (abind m (fun x => k))
  (at level 100, m at next level, right associativity) : async_scope.
Notation "m ;;; k" := (abind m (fun _ => k))
  (at level 100, right associativity) : async_scope.

Section AsyncRouter.
Context (env : Env).
Open Scope async_scope.

(** [fetch(url)] sends the request when it is called; the answer comes
    later. *)
Definition fetch_issue (url : string) : Js nat :=
  (n <- get requests ;;
   modify (set_requests (S n)) ;;;
   emit (EFetch url) ;;;
   ret n)%js.

Definition fetch_answer (n : nat) (url : string) : Js (nat * option string) :=
  match network env n url with
  | NetworkError reason => throw (Rejected reason)
  | Response status body => ret (status, body)
  end.

(** [loadComponent], router.js 180-203, with its two waits: for the answer
    of [fetch] and for the body.  The cache is looked up before the first
    wait and written after the second. *)
Definition loadComponentA (c : string) : Async string :=
  cached <- lift (get (fun w => cache w !! c)) ;;
  match cached with
  | Some content => lift (ret content)
  | None =>
      atry_catch
        (n <- lift (fetch_issue (partial_url c)) ;;
         await (WFetch n (partial_url c)) ;;;
         response <- lift (fetch_answer n (partial_url c)) ;;
         lift (if ok (fst response) then ret tt else throw (LoadFailed (fst response))) ;;;
         await (WText n (partial_url c)) ;;;
         content <- lift (text (snd response)) ;;
         lift (modify (fun w => set_cache (<[c := content]> (cache w)) w)) ;;;
         lift (emit (ECacheSet c)) ;;;
         lift (ret content))
        (fun error =>
           (emit (EConsoleError (component_error_label c) error) ;;;
            ret (getErrorContent c))%js)
  end.

(** [prefetchRoute], router.js 209-225. *)
Definition prefetchRouteA (p : string) : Async unit :=
  seen <- lift (get prefetchedRoutes) ;;
  if decide (p ∈ seen) then lift (ret tt)
  else
    match defineRoutes !! p with
    | None => lift (ret tt)
    | Some route =>
        atry_catch
          (loadComponentA (component route) ;;;
           lift (modify (fun w => set_prefetchedRoutes ({[p]} ∪ prefetchedRoutes w) w)) ;;;
           lift (emit (EPrefetched p)))
          (fun error => emit (EConsoleError "Error prefetching route:" error))
    end.

(** The writes of [renderContent] to the container that is there when they
    are made. *)
Definition write_style (o t : string) : Js unit :=
  modify (fun w =>
    set_appContainer ((fun c => mkContainer (innerHTML c) o t) <$> appContainer w) w).
Definition write_innerHTML (html : string) : Js unit :=
  modify (fun w =>
    set_appContainer
      ((fun c => mkContainer html (opacity c) (transform c)) <$> appContainer w) w).

(** [renderContent], router.js 247-271, with the wait for its timer. *)
Definition renderContentA (content : string) : Async unit :=
  app <- lift (get appContainer) ;;
  match app with
  | None => lift (ret tt)
  | Some _ =>
      lift (write_style "0" "translateY(20px)") ;;;
      lift (emit EFadeOut) ;;;
      await WTimer ;;;
      lift (write_innerHTML content) ;;;
      lift (emit (EInnerHTML content)) ;;;
      lift (call env triggerContentAnimations_dom) ;;;
      lift (emit EContentAnimations) ;;;
      lift (write_style "1" "translateY(0)") ;;;
      lift (emit EFadeIn) ;;;
      lift (call env manageFocus_dom) ;;;
      lift (emit EFocus)
  end.

(** The [try] block of [loadRoute], router.js 146-165. *)
Definition loadRoute_tryA (route : Route) : Async unit :=
  content <- loadComponentA (component route) ;;
  lift (updatePageTitle env (title route)) ;;;
  lift (updateActiveNavigation env (path route)) ;;;
  renderContentA content ;;;
  lift (modify (set_currentRoute (Some (path route)))) ;;;
  lift (emit (ECurrentRoute (path route))) ;;;
  lift (initializePageComponents env (component route)) ;;;
  lift (trackPageView env route).

(** [loadRoute], router.js 135-173: the guard is tested once, when the call
    begins. *)
Definition loadRouteA (p : string) : Async unit :=
  match resolve p with
  | None => lift (throw (NullDeref "route"))
  | Some route =>
      current <- lift (get currentRoute) ;;
      if decide (current = Some (path route)) then lift (ret tt)
      else
        lift showLoading ;;;
        atry_finally (atry_catch (loadRoute_tryA route) loadRoute_catch) hideLoading
  end.

(** [navigateTo], router.js 111-119, and [handleRoute], router.js 124-129. *)
Definition navigateToA (p : string) (pushState : bool) : Async unit :=
  lift (if pushState then setHash (hash_of (strip_leading_slashes p)) else ret tt) ;;;
  loadRouteA (strip_leading_slashes p).

Definition handleRouteA : Async unit :=
  hash <- lift (get (fun w => slice1 (locationHash w))) ;;
  loadRouteA (if String.prefix "/" hash then slice1 hash else hash).

(** What a listener starts: the [click] listener (router.js 73-80) and the
    keyboard shortcuts call [navigateTo]; the [hashchange] and [popstate]
    listeners (router.js 70, 83) and [init] call [handleRoute], with the hash
    the address bar has by then; the [mouseover] listener (router.js 86-92)
    and the prefetch timer call [prefetchRoute]. *)
Definition start (a : action) : Async unit :=
  match a with
  | Click p => navigateToA p true
  | HashChange h => lift (modify (set_locationHash h)) ;;; handleRouteA
  | Hover p => prefetchRouteA p
  end.

End AsyncRouter.

(** ** The event loop *)

(** The world and the calls that wait. *)
Record Sys := mkSys {
  world : World;
  pool : list (wait * (World -> proc unit * World))
}.

(** A call that has given way joins the pool; one that has finished, by
    returning or by throwing, leaves nothing behind. *)
Definition park (p : proc unit) (w : World)
    (waiting : list (wait * (World -> proc unit * World))) : Sys :=
  match p with
  | Fin _ => mkSys w waiting
  | Wait wt r => mkSys w (waiting ++ [(wt, r)])
  end.

Definition spawn (m : Async unit) (s : Sys) : Sys :=
  park (fst (m (world s))) (snd (m (world s))) (pool s).

(** The i-th waiting call gets what it waits for and runs to its next wait,
    where it joins the end of the pool.  Answers and timers may come in any
    order. *)
Definition resume (i : nat) (s : Sys) : Sys :=
  match pool s !! i with
  | None => s
  | Some (_, r) => park (fst (r (world s))) (snd (r (world s))) (delete i (pool s))
  end.

(** What happens next: a listener fires, or a waiting call is resumed. *)
Inductive tick :=
| Fire (a : action)
| Resume (i : nat).

Definition tick_step (env : Env) (t : tick) (s : Sys) : Sys :=
  match t with
  | Fire a => spawn (start env a) s
  | Resume i => resume i s
  end.

Fixpoint run (env : Env) (ticks : list tick) (s : Sys) : Sys :=
  match ticks with
  | [] => s
  | t :: rest => run env rest (tick_step env t s)
  end.

(** A call resumed at once at each of its waits. *)
Fixpoint drain {A} (p : proc A) (w : World) : completion A * World :=
  match p with
  | Fin c => (c, w)
  | Wait _ r => drain (fst (r w)) (snd (r w))
  end.

(** ** Vocabulary for overlapping calls *)

(** The call waits for the fragment of component [c]. *)
Definition loading (c : string) (wt : wait) : Prop :=
  match wt with
  | WFetch _ url | WText _ url => url = partial_url c
  | WTimer => False
  end.


(** What overlapping calls only ever add to. *)
Record grows (w w' : World) : Prop := mkGrows {
  grows_cache : dom (cache w) ⊆ dom (cache w');
  grows_prefetched : prefetchedRoutes w ⊆ prefetchedRoutes w';
  grows_requests : requests w <= requests w';
  grows_trace : trace w `prefix_of` trace w'
}.

(** The entry of [c], if it is [content], stays, and is not requested. *)
Definition keeps_entry (c content : string) (w w' : World) : Prop :=
  cache w !! c = Some content ->
  trace w `prefix_of` trace w' /\
  cache w' !! c = Some content /\
  EFetch (partial_url c) ∉ emitted w w'.

(** ** Calls that keep a relation *)

Section Tame.
Context (Pre : World -> Prop) (R : relation World) (hot : string -> Prop).

(** The call waits for one of the [hot] URLs. *)
Definition busy (wt : wait) : Prop :=
  match wt with
  | WFetch _ url | WText _ url => hot url
  | WTimer => False
  end.

Definition calm {A} (p : proc A) : Prop :=
  match p with
  | Fin _ => True
  | Wait wt _ => ~ busy wt
  end.

(** Whenever the call is resumed from a wait that is not busy, in a world
    that satisfies [Pre], it keeps [R] up to its next wait, which is not busy
    either. *)
Inductive tame {A} : proc A -> Prop :=
| tame_fin c : tame (Fin c)
| tame_wait wt r :
    (forall w, tame (fst (r w))) ->
    (~ busy wt -> forall w, Pre w -> R w (snd (r w)) /\ calm (fst (r w))) ->
    tame (Wait wt r).

(** The same of a call from its beginning. *)
Definition atame {A} (m : Async A) : Prop :=
  (forall w, tame (fst (m w))) /\
  (forall w, Pre w -> R w (snd (m w)) /\ calm (fst (m w))).

Definition pool_tame (waiting : list (wait * (World -> proc unit * World))) : Prop :=
  Forall (fun t => tame (Wait (fst t) (snd t))) waiting.

Definition pool_calm (waiting : list (wait * (World -> proc unit * World))) : Prop :=
  Forall (fun t => ~ busy (fst t)) waiting.

End Tame.

(** A call with every wait answered at once: nothing runs in between. *)
Definition uninterrupted {A} (m : Async A) : Js A :=
  fun w => drain (fst (m w)) (snd (m w)).

(** The router with no call under way. *)
Definition boot (w : World) : Sys := mkSys w [].






(** The URLs requested so far, and the components stored, in order. *)
Definition requested (w : World) : list string :=
  omap (fun e => match e with EFetch url => Some url | _ => None end) (trace w).

(** * The rest of the router *)

(** ** Keyboard shortcuts and start-up *)








(** The loop of [prefetchCriticalRoutes], router.js 230-241, once its timer
    has fired, with nothing else happening during its waits. *)
Definition criticalRoutes : list string := ["about"; "contact"; "rfq"].

Fixpoint prefetchAll (env : Env) (paths : list string) : Js unit :=
  match paths with
  | [] => ret tt
  | p :: rest => bind (prefetchRoute env p) (fun _ => prefetchAll env rest)
  end.

Definition prefetchCriticalRoutes (env : Env) : Js unit :=
  prefetchAll env criticalRoutes.

(** ** Vocabulary *)

(** The part of the world a visitor sees. *)
Definition same_page (w w' : World) : Prop :=
  currentRoute w' = currentRoute w /\ appContainer w' = appContainer w /\
  documentTitle w' = documentTitle w /\ loadingElement w' = loadingElement w /\
  locationHash w' = locationHash w.




(** * Properties *)

(** ** The route table *)

#[global] Instance Route_eq_dec : EqDecision Route.
Proof. solve_decision. Defined.

Lemma defineRoutes_lookup p r :
  defineRoutes !! p = Some r -> r ∈ route_list /\ path r = p.
Proof.
  unfold defineRoutes, route_list. cbn [foldl path].
  intros H.
  repeat (rewrite lookup_insert in H; case_decide;
          [ simplify_eq; split; [ | reflexivity ] | ]).
  all: try (by rewrite lookup_empty in H).
  all: by apply (bool_decide_unpack _); vm_compute.
Qed.

Lemma defineRoutes_home : defineRoutes !! "home" = Some home_route.
Proof. vm_compute. reflexivity. Qed.

Lemma defineRoutes_root : defineRoutes !! "" = Some root_route.
Proof. vm_compute. reflexivity. Qed.

(** Every route but the one under the empty path is registered under its
    component's name. *)
Lemma route_list_component r :
  r ∈ route_list -> path r = component r \/ r = root_route.
Proof.
  unfold route_list. rewrite !elem_of_cons, elem_of_nil.
  intros H. repeat (destruct H as [-> | H]; [ (by left) || (by right) | ]). done.
Qed.

(** The default route makes resolution total. *)
Lemma resolve_total p : exists r, resolve p = Some r.
Proof.
  unfold resolve. destruct (defineRoutes !! p); [ eauto | ].
  rewrite defineRoutes_home. eauto.
Qed.

Lemma resolve_registered p r : defineRoutes !! p = Some r -> resolve p = Some r.
Proof. unfold resolve. by intros ->. Qed.

Lemma resolve_unregistered p : defineRoutes !! p = None -> resolve p = Some home_route.
Proof. unfold resolve. intros ->. apply defineRoutes_home. Qed.

Lemma resolve_in_table p r : resolve p = Some r -> r ∈ route_list.
Proof.
  unfold resolve. destruct (defineRoutes !! p) eqn:E.
  - intros [= <-]. by apply defineRoutes_lookup in E as [? _].
  - intros H. by apply defineRoutes_lookup in H as [? _].
Qed.

(** The resolved route carries the requested path, or is the default. *)
Lemma resolve_path p r :
  resolve p = Some r -> path r = p \/ (defineRoutes !! p = None /\ r = home_route).
Proof.
  unfold resolve. destruct (defineRoutes !! p) eqn:E.
  - intros [= <-]. left. by apply defineRoutes_lookup in E as [_ ?].
  - rewrite defineRoutes_home. intros [= <-]. by right.
Qed.

(** ** Relations every method preserves *)

Section Preserves.
Context (R : relation World) `{!PreOrder R}.

Lemma preserves_ret {A} (a : A) : preserves R (ret a).
Proof. intros w. reflexivity. Qed.

Lemma preserves_throw {A} e : preserves R (@throw A e).
Proof. intros w. reflexivity. Qed.

Lemma preserves_get {A} (f : World -> A) : preserves R (get f).
Proof. intros w. reflexivity. Qed.

Lemma preserves_modify f : (forall w, R w (f w)) -> preserves R (modify f).
Proof. intros H w. apply H. Qed.

Lemma preserves_bind {A B} (m : Js A) (k : A -> Js B) :
  preserves R m -> (forall a, preserves R (k a)) -> preserves R (bind m k).
Proof.
  intros Hm Hk w. unfold bind. specialize (Hm w).
  destruct (m w) as [[a | e] w1]; cbn in *; [ | done ].
  etransitivity; [ exact Hm | apply Hk ].
Qed.

Lemma preserves_try_catch {A} (m : Js A) (h : exn -> Js A) :
  preserves R m -> (forall e, preserves R (h e)) -> preserves R (try_catch m h).
Proof.
  intros Hm Hh w. unfold try_catch. specialize (Hm w).
  destruct (m w) as [[a | e] w1]; cbn in *; [ done | ].
  etransitivity; [ exact Hm | apply Hh ].
Qed.

Lemma preserves_try_finally {A} (m : Js A) (fin : Js unit) :
  preserves R m -> preserves R fin -> preserves R (try_finally m fin).
Proof.
  intros Hm Hf w. unfold try_finally. specialize (Hm w).
  destruct (m w) as [c w1]. specialize (Hf w1).
  destruct (fin w1) as [[[] | e] w2]; cbn in *; etransitivity; eauto.
Qed.

Lemma preserves_call env c : preserves R (call env c).
Proof.
  unfold call. destruct (raises env c); [ apply preserves_throw | apply preserves_ret ].
Qed.

End Preserves.

(** The effects added, once the final trace is known. *)
Lemma emitted_app w w' evs : trace w' = trace w ++ evs -> emitted w w' = evs.
Proof. unfold emitted. intros ->. apply drop_app_length. Qed.

Lemma emitted_refl w : emitted w w = [].
Proof. apply emitted_app. by rewrite app_nil_r. Qed.

Lemma emitted_same_trace w w' : trace w' = trace w -> emitted w w' = [].
Proof. intros H. apply emitted_app. by rewrite app_nil_r. Qed.

Lemma prefix_emitted w w' :
  trace w `prefix_of` trace w' -> trace w' = trace w ++ emitted w w'.
Proof. intros [k Hk]. by rewrite (emitted_app _ _ _ Hk). Qed.

Lemma prefix_emitted_trans w1 w2 w3 :
  trace w1 `prefix_of` trace w2 -> trace w2 `prefix_of` trace w3 ->
  emitted w1 w3 = emitted w1 w2 ++ emitted w2 w3.
Proof.
  intros H12 H23. apply emitted_app.
  rewrite (prefix_emitted _ _ H23), (prefix_emitted _ _ H12). by rewrite app_assoc.
Qed.

#[global] Instance evolves_preorder : PreOrder evolves.
Proof.
  split.
  - intros w. split; try done. intros c _. rewrite emitted_refl. apply not_elem_of_nil.
  - intros w1 w2 w3 [Hc1 ? ? Ht1 ? ? Hf1] [Hc2 ? ? Ht2 ? ? Hf2].
    split; try (etransitivity; eassumption).
    intros c [m Hm]. rewrite (prefix_emitted_trans w1 w2 w3 Ht1 Ht2).
    rewrite elem_of_app. intros [Hin | Hin].
    + by apply (Hf1 c (mk_is_Some _ _ Hm)).
    + apply (Hf2 c); [ | exact Hin ]. exists m. by eapply lookup_weaken.
Qed.

Lemma is_Some_Some_iff {A} (a b : A) : is_Some (Some a) <-> is_Some (Some b).
Proof. split; eauto. Qed.

(** A step that leaves the trace alone. *)
Lemma evolves_same_trace w w' :
  trace w' = trace w ->
  cache w ⊆ cache w' ->
  prefetchedRoutes w ⊆ prefetchedRoutes w' ->
  requests w <= requests w' ->
  (is_Some (loadingElement w) <-> is_Some (loadingElement w')) ->
  (is_Some (appContainer w) <-> is_Some (appContainer w')) ->
  evolves w w'.
Proof.
  intros Ht ? ? ? ? ?. split; try done.
  - by rewrite Ht.
  - intros c _. rewrite (emitted_same_trace _ _ Ht). apply not_elem_of_nil.
Qed.

(** An effect other than a request. *)
Lemma evolves_emit e w :
  (forall url, e <> EFetch url) -> evolves w (set_trace (trace w ++ [e]) w).
Proof.
  intros He. split; cbn; try done.
  - by apply prefix_app_r.
  - intros c _. rewrite (emitted_app w _ [e]) by done.
    rewrite list_elem_of_singleton. intros Heq. by apply (He (partial_url c)).
Qed.

Lemma evolves_emitted w w' : evolves w w' -> trace w' = trace w ++ emitted w w'.
Proof. intros H. apply prefix_emitted, H. Qed.

Lemma emitted_trans w1 w2 w3 :
  evolves w1 w2 -> evolves w2 w3 ->
  emitted w1 w3 = emitted w1 w2 ++ emitted w2 w3.
Proof. intros H12 H23. apply prefix_emitted_trans; [ apply H12 | apply H23 ]. Qed.

(** The URL names the component. *)
Lemma length_append (a b : string) :
  String.length (a +:+ b) = String.length a + String.length b.
Proof. induction a as [ | x a IH ]; simpl; [ reflexivity | f_equal; exact IH ]. Qed.

Lemma append_inj_r (s a b : string) : a +:+ s = b +:+ s -> a = b.
Proof.
  revert b. induction a as [ | x a IH ]; intros [ | y b ] H.
  - reflexivity.
  - apply (f_equal String.length) in H. rewrite !length_append in H. simpl in H. lia.
  - apply (f_equal String.length) in H. rewrite !length_append in H. simpl in H. lia.
  - simpl in H. injection H as -> H. f_equal. by apply IH.
Qed.

Lemma partial_url_inj a b : partial_url a = partial_url b -> a = b.
Proof.
  unfold partial_url. intros H.
  apply (inj (String.append "partials/")) in H. by apply append_inj_r in H.
Qed.

(** ** Every method only adds to the session *)

Create HintDb js.

Section Evolves.
Context (env : Env).

Local Hint Extern 1 (preserves _ (ret _)) => apply (preserves_ret evolves) : js.
Local Hint Extern 1 (preserves _ (throw _)) => apply (preserves_throw evolves) : js.
Local Hint Extern 1 (preserves _ (get _)) => apply (preserves_get evolves) : js.
Local Hint Extern 1 (preserves _ (call _ _)) => apply (preserves_call evolves) : js.
Local Hint Extern 1 (preserves _ (bind _ _)) =>
  apply (preserves_bind evolves); [ | intros ] : js.
Local Hint Extern 1 (preserves _ (try_catch _ _)) =>
  apply (preserves_try_catch evolves); [ | intros ] : js.
Local Hint Extern 1 (preserves _ (try_finally _ _)) =>
  apply (preserves_try_finally evolves) : js.
Local Hint Extern 1 (preserves _ (emit _)) =>
  apply (preserves_modify evolves); intros; apply evolves_emit; done : js.
Local Hint Extern 2 (preserves _ (modify _)) =>
  apply (preserves_modify evolves); intros; apply evolves_same_trace; cbn;
    (done || set_solver) : js.
Local Hint Extern 3 (preserves _ (match ?x with _ => _ end)) => destruct x : js.

(** The methods that insert into the cache, or write a DOM element, do so
    after a test on the world: they are run case by case. *)
Local Ltac no_fetch_among Hin :=
  repeat (apply elem_of_cons in Hin as [Hin | Hin]; [ discriminate Hin | ]);
  by apply elem_of_nil in Hin.

Local Ltac evolves_by_cases :=
  js_run; split; cbn; try done; try lia;
  try (by apply insert_subseteq); try apply is_Some_Some_iff;
  try (rewrite <- ?app_assoc; by apply prefix_app_r);
  let Hin := fresh "Hin" in
  intros ? _; emitted_norm; intros Hin; no_fetch_among Hin.

Lemma loadComponent_evolves c : preserves evolves (loadComponent env c).
Proof.
  intros [cur ca pf le ac dt lh rq tr]. js_unfold. cbn.
  destruct (ca !! c) eqn:Hc; cbn; [ reflexivity | ].
  js_run; split; cbn; try done; try lia; try (by apply insert_subseteq);
    try (rewrite <- ?app_assoc; by apply prefix_app_r).
  all: intros c' [m Hm]; emitted_norm; intros Hin.
  all: apply elem_of_cons in Hin as [Hin | Hin];
       [ assert (partial_url c' = partial_url c) as Hu by congruence;
         apply partial_url_inj in Hu; congruence | ].
  all: no_fetch_among Hin.
Qed.

Lemma showLoading_evolves : preserves evolves showLoading.
Proof. intros [cur ca pf le ac dt lh rq tr]. js_unfold. evolves_by_cases. Qed.

Lemma hideLoading_evolves : preserves evolves hideLoading.
Proof. intros [cur ca pf le ac dt lh rq tr]. js_unfold. evolves_by_cases. Qed.

Lemma renderContent_evolves content : preserves evolves (renderContent env content).
Proof. intros [cur ca pf le ac dt lh rq tr]. js_unfold. evolves_by_cases. Qed.

Lemma handleRouteError_evolves e : preserves evolves (handleRouteError e).
Proof. intros [cur ca pf le ac dt lh rq tr]. js_unfold. evolves_by_cases. Qed.

Lemma updatePageTitle_evolves t : preserves evolves (updatePageTitle env t).
Proof. unfold updatePageTitle. auto 10 with js. Qed.

Lemma updateActiveNavigation_evolves p : preserves evolves (updateActiveNavigation env p).
Proof. unfold updateActiveNavigation. auto 10 with js. Qed.

Lemma initializePageComponents_evolves c :
  preserves evolves (initializePageComponents env c).
Proof. unfold initializePageComponents, run_hook. auto 20 with js. Qed.

Lemma trackPageView_evolves r : preserves evolves (trackPageView env r).
Proof. unfold trackPageView. auto 10 with js. Qed.

Local Hint Resolve loadComponent_evolves showLoading_evolves hideLoading_evolves
  renderContent_evolves updatePageTitle_evolves
  updateActiveNavigation_evolves initializePageComponents_evolves
  trackPageView_evolves handleRouteError_evolves : js.

Lemma after_load_evolves r content : preserves evolves (after_load env r content).
Proof. unfold after_load. auto 30 with js. Qed.

Lemma loadRoute_try_evolves r : preserves evolves (loadRoute_try env r).
Proof. unfold loadRoute_try. auto 30 with js. Qed.

Lemma loadRoute_catch_evolves e : preserves evolves (loadRoute_catch e).
Proof. unfold loadRoute_catch. auto 10 with js. Qed.

Local Hint Resolve loadRoute_try_evolves loadRoute_catch_evolves : js.

Lemma loadRoute_evolves p : preserves evolves (loadRoute env p).
Proof. unfold loadRoute. auto 20 with js. Qed.

Lemma prefetchRoute_evolves p : preserves evolves (prefetchRoute env p).
Proof. unfold prefetchRoute. auto 20 with js. Qed.

Local Hint Resolve loadRoute_evolves prefetchRoute_evolves : js.

Lemma navigateTo_evolves p b : preserves evolves (navigateTo env p b).
Proof. unfold navigateTo, setHash. auto 20 with js. Qed.

Lemma handleRoute_evolves : preserves evolves (handleRoute env).
Proof. unfold handleRoute. auto 20 with js. Qed.

Lemma step_evolves a : preserves evolves (step env a).
Proof.
  destruct a; cbn; auto using navigateTo_evolves, prefetchRoute_evolves.
  apply (preserves_bind evolves); [ | intros; apply handleRoute_evolves ].
  apply (preserves_modify evolves). intros w. by apply evolves_same_trace.
Qed.

Lemma session_evolves acts w : evolves w (session env acts w).
Proof.
  revert w. induction acts as [ | a acts IH ]; intros w; cbn; [ reflexivity | ].
  etransitivity; [ apply step_evolves | apply IH ].
Qed.

End Evolves.

(** ** One navigation, piece by piece *)

Section Navigation.
Context (env : Env).

Lemma showLoading_eq w :
  showLoading w =
    (Normal tt,
     match loadingElement w with
     | Some _ => set_trace (trace w ++ [ELoading "block"])
                   (set_loadingElement (Some "block") w)
     | None => w
     end).
Proof. destruct w as [cur ca pf [d | ] ac dt lh rq tr]; reflexivity. Qed.

Lemma hideLoading_eq w :
  hideLoading w =
    (Normal tt,
     match loadingElement w with
     | Some _ => set_trace (trace w ++ [ELoading "none"])
                   (set_loadingElement (Some "none") w)
     | None => w
     end).
Proof. destruct w as [cur ca pf [d | ] ac dt lh rq tr]; reflexivity. Qed.

Lemma loadRoute_catch_eq e w :
  loadRoute_catch e w =
    let w1 := set_trace (trace w ++ [EConsoleError "Error loading route:" e;
                                     EConsoleError "Route error:" e]) w in
    match appContainer w with
    | None => (Throw (NullDeref "appContainer"), w1)
    | Some c =>
        (Normal tt,
         set_trace (trace w1 ++ [EInnerHTML errorContent])
           (set_appContainer
              (Some (mkContainer errorContent (opacity c) (transform c))) w1))
    end.
Proof.
  destruct w as [cur ca pf le [c | ] dt lh rq tr]; js_unfold_rest; cbn;
    by rewrite <- !app_assoc.
Qed.

(** *** The fragment loader *)


Lemma loadComponent_miss_ok c status content w :
  cache w !! c = None ->
  network env (requests w) (partial_url c) = Response status (Some content) ->
  ok status = true ->
  loadComponent env c w =
    (Normal content,
     set_trace (trace w ++ [EFetch (partial_url c); ECacheSet c])
       (set_cache (<[c := content]> (cache w)) (set_requests (S (requests w)) w))).
Proof.
  intros Hc Hn Hok. destruct w as [cur ca pf le ac dt lh rq tr]. cbn in *.
  js_unfold. cbn. rewrite Hc. cbn. rewrite Hn. cbn. rewrite Hok. cbn.
  by rewrite <- app_assoc.
Qed.

Lemma loadComponent_miss_fail c w :
  cache w !! c = None ->
  fetch_fails (network env (requests w) (partial_url c)) ->
  loadComponent env c w =
    (Normal (getErrorContent c),
     set_trace (trace w ++ [EFetch (partial_url c);
                            EConsoleError (component_error_label c)
                              (fetch_error (network env (requests w) (partial_url c)))])
       (set_requests (S (requests w)) w)).
Proof.
  intros Hc Hf. destruct w as [cur ca pf le ac dt lh rq tr]. cbn in *.
  js_unfold. cbn. rewrite Hc. cbn.
  destruct (network env rq (partial_url c)) as [reason | status [body | ]]; cbn in *.
  - by rewrite <- app_assoc.
  - destruct Hf as [-> | [=]]. cbn. by rewrite <- app_assoc.
  - destruct (ok status); cbn; by rewrite <- app_assoc.
Qed.

(** The loader converts every failure into markup: it never throws. *)
Lemma loadComponent_normal c w : exists content, fst (loadComponent env c w) = Normal content.
Proof. destruct w. js_unfold. js_run; eauto. Qed.

(** All its effects belong to the load phase. *)
Lemma loadComponent_events c w :
  Forall (fun e => phase_of e = Some Load) (emitted w (snd (loadComponent env c w))).
Proof.
  destruct w as [cur ca pf le ac dt lh rq tr]. js_unfold. js_run.
  all: emitted_norm; by repeat constructor.
Qed.

(** It leaves the page alone. *)
Lemma loadComponent_frame c w :
  let w' := snd (loadComponent env c w) in
  currentRoute w' = currentRoute w /\ appContainer w' = appContainer w /\
  loadingElement w' = loadingElement w /\ prefetchedRoutes w' = prefetchedRoutes w /\
  documentTitle w' = documentTitle w.
Proof. destruct w. js_unfold. js_run; done. Qed.

(** *** The [try] block *)

Lemma loadRoute_try_eq r w :
  loadRoute_try env r w =
    match loadComponent env (component r) w with
    | (Normal content, wl) => after_load env r content wl
    | (Throw e, wl) => (Throw e, wl)
    end.
Proof. reflexivity. Qed.

(** The phases after the load, when none of them throws. *)
Lemma after_load_normal r content w :
  fst (after_load env r content w) = Normal tt ->
  let w' := snd (after_load env r content w) in
  trace w' =
    trace w ++ [ETitle (fullTitle (title r)); EActiveNav (path r)]
      ++ match appContainer w with
         | Some _ => render_events content
         | None => []
         end
      ++ [ECurrentRoute (path r)]
      ++ hook_events (component r)
      ++ (if gtag_defined env then [EPageView (title r)] else []) /\
  currentRoute w' = Some (path r) /\
  appContainer w' =
    (fun _ => mkContainer content "1" "translateY(0)") <$> appContainer w /\
  documentTitle w' = fullTitle (title r).
Proof.
  destruct w as [cur ca pf le ac dt lh rq tr].
  js_unfold_rest. unfold FEATURES_ANALYTICS.
  js_run; intros [=]; rewrite <- ?app_assoc; cbn; done.
Qed.

Lemma after_load_quiet r content w :
  quiet env -> fst (after_load env r content w) = Normal tt.
Proof.
  intros Hq. destruct w as [cur ca pf le ac dt lh rq tr].
  js_unfold_rest. rewrite !Hq. js_run; done.
Qed.

(** Whatever happens after the load, the store and the loading
    indicator are not touched. *)
Lemma after_load_frame r content w :
  let w' := snd (after_load env r content w) in
  cache w' = cache w /\ requests w' = requests w /\
  prefetchedRoutes w' = prefetchedRoutes w /\ loadingElement w' = loadingElement w.
Proof. destruct w. js_unfold_rest. js_run; done. Qed.

(** Where the state update stands when the block ends, normally or not. *)
Lemma after_load_currentRoute r content w :
  currentRoute (snd (after_load env r content w)) =
    if throws_before_update env w then currentRoute w else Some (path r).
Proof. destruct w. unfold throws_before_update. js_unfold_rest. js_run; done. Qed.

Lemma after_load_throws_before_update r content w :
  throws_before_update env w = true ->
  exists e, fst (after_load env r content w) = Throw e.
Proof.
  destruct w. unfold throws_before_update. js_unfold_rest. js_run; intros; eauto; done.
Qed.

(** Its effects come phase after phase, complete or cut short. *)
Lemma after_load_events r content w :
  let evs := emitted w (snd (after_load env r content w)) in
  StronglySorted not_after evs /\
  Forall (fun e => exists ph, phase_of e = Some ph /\ ph <> Load) evs.
Proof.
  destruct w as [cur ca pf le ac dt lh rq tr]. js_unfold_rest. js_run.
  all: emitted_norm.
  all: split; [ repeat constructor; cbn; lia | repeat constructor; eexists; by split ].
Qed.

End Navigation.

(** ** One navigation as a whole *)

Section WholeNavigation.
Context (env : Env).

Lemma showLoading_frame w :
  let w' := snd (showLoading w) in
  currentRoute w' = currentRoute w /\ cache w' = cache w /\
  requests w' = requests w /\ prefetchedRoutes w' = prefetchedRoutes w /\
  appContainer w' = appContainer w /\ documentTitle w' = documentTitle w.
Proof. rewrite showLoading_eq. by destruct w as [? ? ? [d | ] ? ? ? ? ?]. Qed.

Lemma hideLoading_frame w :
  let w' := snd (hideLoading w) in
  currentRoute w' = currentRoute w /\ cache w' = cache w /\
  requests w' = requests w /\ prefetchedRoutes w' = prefetchedRoutes w /\
  appContainer w' = appContainer w /\ documentTitle w' = documentTitle w /\
  loadingElement w' = (fun _ => "none") <$> loadingElement w.
Proof. rewrite hideLoading_eq. by destruct w as [? ? ? [d | ] ? ? ? ? ?]. Qed.

Lemma loadRoute_catch_frame e w :
  let w' := snd (loadRoute_catch e w) in
  currentRoute w' = currentRoute w /\ cache w' = cache w /\
  requests w' = requests w /\ prefetchedRoutes w' = prefetchedRoutes w /\
  loadingElement w' = loadingElement w /\
  (innerHTML <$> appContainer w' = (fun _ => errorContent) <$> appContainer w) /\
  (is_Some (appContainer w) -> fst (loadRoute_catch e w) = Normal tt) /\
  length (trace w) < length (trace w').
Proof.
  rewrite loadRoute_catch_eq.
  destruct w as [? ? ? ? [c | ] ? ? ? ?]; cbn; rewrite ?length_app; cbn;
    repeat split; try done; lia.
Qed.

(** [loadRoute] past its guard: show, then the [try] block (the load and what
    follows it), then the handler if it threw, and hide in any case. *)
Lemma loadRoute_navigates p r w :
  resolve p = Some r -> currentRoute w <> Some (path r) ->
  exists content wl,
    loadComponent env (component r) (snd (showLoading w)) = (Normal content, wl) /\
    loadRoute_try env r (snd (showLoading w)) = after_load env r content wl /\
    loadRoute env p w =
      match after_load env r content wl with
      | (Normal _, wa) => (Normal tt, snd (hideLoading wa))
      | (Throw e, wa) =>
          (fst (loadRoute_catch e wa), snd (hideLoading (snd (loadRoute_catch e wa))))
      end.
Proof.
  intros Hr Hne.
  destruct (loadComponent_normal env (component r) (snd (showLoading w))) as [content Hc].
  destruct (loadComponent env (component r) (snd (showLoading w))) as [c wl] eqn:Hl.
  cbn in Hc. subst c. exists content, wl. split; [ reflexivity | ].
  assert (loadRoute_try env r (snd (showLoading w)) = after_load env r content wl) as Ht
    by (by rewrite loadRoute_try_eq, Hl).
  split; [ exact Ht | ].
  unfold loadRoute. rewrite Hr. unfold bind at 1, get.
  case_decide; [ done | ].
  unfold bind. rewrite showLoading_eq. cbn [fst snd].
  rewrite showLoading_eq in Ht. cbn [snd] in Ht.
  unfold try_finally, try_catch. rewrite Ht.
  destruct (after_load env r content wl) as [[[] | e] wa].
  - cbn [fst snd]. by rewrite hideLoading_eq.
  - destruct (loadRoute_catch e wa) as [c' wc]. cbn [fst snd]. by rewrite hideLoading_eq.
Qed.

Lemma loadRoute_same_path p r w :
  resolve p = Some r -> currentRoute w = Some (path r) ->
  loadRoute env p w = (Normal tt, w).
Proof.
  intros Hr Hc. unfold loadRoute. rewrite Hr. unfold bind, get.
  by rewrite decide_True.
Qed.

(** A navigation that passes the guard leaves effects behind. *)
Lemma loadRoute_progress p r w :
  resolve p = Some r -> currentRoute w <> Some (path r) ->
  length (trace w) < length (trace (snd (loadRoute env p w))).
Proof.
  intros Hr Hne.
  destruct (loadRoute_navigates p r w Hr Hne) as (content & wl & Hl & _ & ->).
  pose proof (prefix_length _ _ (evolves_trace _ _ (showLoading_evolves w))) as H0.
  pose proof (prefix_length _ _
    (evolves_trace _ _ (loadComponent_evolves env (component r) (snd (showLoading w))))) as H1.
  rewrite Hl in H1. cbn [snd] in H1.
  pose proof (after_load_normal env r content wl) as Hn.
  pose proof (prefix_length _ _
    (evolves_trace _ _ (after_load_evolves env r content wl))) as H2.
  destruct (after_load env r content wl) as [[[] | e] wa]; cbn [fst snd] in *.
  - destruct (Hn eq_refl) as [Htr _].
    pose proof (prefix_length _ _ (evolves_trace _ _ (hideLoading_evolves wa))) as H3.
    assert (length (trace wl) < length (trace wa))
      by (rewrite Htr, length_app; cbn; lia).
    lia.
  - pose proof (loadRoute_catch_frame e wa) as (_ & _ & _ & _ & _ & _ & _ & H3).
    pose proof (prefix_length _ _
      (evolves_trace _ _ (hideLoading_evolves (snd (loadRoute_catch e wa))))) as H4.
    lia.
Qed.

Lemma fmap_const_is_Some {A B} (x : B) (a b : option A) :
  (is_Some a <-> is_Some b) -> (fun _ => x) <$> a = (fun _ => x) <$> b.
Proof.
  destruct a, b; cbn; intros [H1 H2]; try done.
  - destruct H1 as [? [=]]; eauto.
  - destruct H2 as [? [=]]; eauto.
Qed.

(** The loading indicator, when the page has one, is hidden on every way out. *)
Lemma loadRoute_hides_loading p r w :
  resolve p = Some r -> currentRoute w <> Some (path r) ->
  loadingElement (snd (loadRoute env p w)) = (fun _ => "none") <$> loadingElement w.
Proof.
  intros Hr Hne.
  destruct (loadRoute_navigates p r w Hr Hne) as (content & wl & Hl & _ & ->).
  assert (is_Some (loadingElement wl) <-> is_Some (loadingElement w)) as Hle.
  { pose proof (evolves_loading _ _ (showLoading_evolves w)).
    pose proof (evolves_loading _ _ (loadComponent_evolves env (component r) (snd (showLoading w)))).
    rewrite Hl in *. cbn [snd] in *. tauto. }
  pose proof (after_load_frame env r content wl) as (_ & _ & _ & Hf).
  destruct (after_load env r content wl) as [[[] | e] wa]; cbn [fst snd] in *.
  - pose proof (hideLoading_frame wa) as (_ & _ & _ & _ & _ & _ & ->).
    rewrite Hf. by apply fmap_const_is_Some.
  - pose proof (hideLoading_frame (snd (loadRoute_catch e wa))) as (_ & _ & _ & _ & _ & _ & ->).
    pose proof (loadRoute_catch_frame e wa) as (_ & _ & _ & _ & -> & _).
    rewrite Hf. by apply fmap_const_is_Some.
Qed.

(** With a container to write the error block into, or with collaborators
    that do not throw, [loadRoute] returns normally. *)
Lemma loadRoute_returns p w :
  is_Some (appContainer w) \/ quiet env -> fst (loadRoute env p w) = Normal tt.
Proof.
  intros Hok. destruct (resolve_total p) as [r Hr].
  destruct (decide (currentRoute w = Some (path r))) as [Hc | Hne].
  { by rewrite (loadRoute_same_path p r w Hr Hc). }
  destruct (loadRoute_navigates p r w Hr Hne) as (content & wl & Hl & _ & ->).
  pose proof (after_load_quiet env r content wl) as Hq.
  pose proof (evolves_app _ _ (after_load_evolves env r content wl)) as Ha.
  pose proof (evolves_app _ _ (loadComponent_evolves env (component r) (snd (showLoading w)))) as Hb.
  pose proof (evolves_app _ _ (showLoading_evolves w)) as Hd.
  rewrite Hl in Hb. cbn [snd] in Hb.
  destruct (after_load env r content wl) as [[[] | e] wa]; cbn [fst snd] in *; [ done | ].
  destruct Hok as [Hsome | Hquiet]; [ | by specialize (Hq Hquiet) ].
  pose proof (loadRoute_catch_frame e wa) as (_ & _ & _ & _ & _ & _ & Hn & _).
  apply Hn. tauto.
Qed.

End WholeNavigation.

(** ** The stages of a navigation *)

Section Stages.
Context (env : Env).

(** The worlds between the stages of a navigation that passes the guard:
    after the indicator is shown, after the load, after the rest of the
    [try] block, and at the end. *)
Lemma loadRoute_stages p r w :
  resolve p = Some r -> currentRoute w <> Some (path r) ->
  exists content wl,
    let w0 := snd (showLoading w) in
    let wt := snd (after_load env r content wl) in
    let w' := snd (loadRoute env p w) in
    loadComponent env (component r) w0 = (Normal content, wl) /\
    loadRoute_try env r w0 = after_load env r content wl /\
    evolves w w0 /\ evolves w0 wl /\ evolves wl wt /\ evolves wt w' /\
    currentRoute w' = currentRoute wt /\
    cache w' = cache wl /\ requests w' = requests wl /\
    (fst (after_load env r content wl) = Normal tt -> w' = snd (hideLoading wt)) /\
    (forall e, fst (after_load env r content wl) = Throw e ->
               w' = snd (hideLoading (snd (loadRoute_catch e wt)))).
Proof.
  intros Hr Hne.
  destruct (loadRoute_navigates env p r w Hr Hne) as (content & wl & Hl & Ht & Heq).
  exists content, wl. cbn zeta. rewrite Heq. clear Heq.
  split; [ exact Hl | ]. split; [ exact Ht | ].
  split; [ apply showLoading_evolves | ].
  split.
  { pose proof (loadComponent_evolves env (component r) (snd (showLoading w))) as H.
    by rewrite Hl in H. }
  split; [ apply after_load_evolves | ].
  pose proof (after_load_frame env r content wl) as (Hca & Hrq & _).
  destruct (after_load env r content wl) as [[[] | e] wa]; cbn [fst snd] in *.
  - pose proof (hideLoading_frame wa) as (Hh1 & Hh2 & Hh3 & _).
    split; [ apply hideLoading_evolves | ].
    split; [ exact Hh1 | ]. split; [ by rewrite Hh2 | ]. split; [ by rewrite Hh3 | ].
    split; [ done | by intros e [=] ].
  - pose proof (hideLoading_frame (snd (loadRoute_catch e wa))) as (Hh1 & Hh2 & Hh3 & _).
    pose proof (loadRoute_catch_frame e wa) as (Hc1 & Hc2 & Hc3 & _).
    split.
    { etransitivity; [ apply loadRoute_catch_evolves | apply hideLoading_evolves ]. }
    split; [ by rewrite Hh1 | ]. split; [ by rewrite Hh2, Hc2 | ].
    split; [ by rewrite Hh3, Hc3 | ].
    split; [ by intros [=] | by intros e' [= <-] ].
Qed.

(** A load that misses the cache starts with a request for the fragment. *)
Lemma loadComponent_miss_fetches c w :
  cache w !! c = None ->
  EFetch (partial_url c) ∈ emitted w (snd (loadComponent env c w)).
Proof.
  intros Hmiss. destruct w as [cur ca pf le ac dt lh rq tr]. cbn in Hmiss.
  js_unfold. cbn. rewrite Hmiss. js_run.
  all: emitted_norm; apply elem_of_cons; by left.
Qed.

(** Effects of one phase are in order among themselves. *)
Lemma same_phase_sorted ph evs :
  Forall (fun e => phase_of e = Some ph) evs -> StronglySorted not_after evs.
Proof.
  induction 1 as [ | e evs He Hevs IH ]; constructor; [ exact IH | ].
  eapply Forall_impl; [ exact Hevs | ].
  intros e' He'. unfold not_after. by rewrite He, He'.
Qed.

(** The effects of the [try] block: those of the load, then the rest. *)
Lemma loadRoute_try_events r w :
  let wt := snd (loadRoute_try env r w) in
  Forall (fun e => is_Some (phase_of e)) (emitted w wt) /\
  StronglySorted not_after (emitted w wt).
Proof.
  cbn zeta. rewrite loadRoute_try_eq.
  pose proof (loadComponent_evolves env (component r) w) as Hev.
  pose proof (loadComponent_events env (component r) w) as Hload.
  pose proof (loadComponent_normal env (component r) w) as [content Hc].
  destruct (loadComponent env (component r) w) as [c wl]. cbn [fst snd] in *. subst c.
  pose proof (after_load_events env r content wl) as [Hsorted Hrest].
  rewrite (emitted_trans w wl _ Hev (after_load_evolves env r content wl)).
  split.
  - apply Forall_app. split.
    + eapply Forall_impl; [ exact Hload | ]. intros e ->. eauto.
    + eapply Forall_impl; [ exact Hrest | ]. intros e (ph & -> & _). eauto.
  - apply StronglySorted_app_2; [ | by eapply same_phase_sorted | exact Hsorted ].
    intros e1 e2 H1 H2.
    rewrite Forall_forall in Hload, Hrest.
    destruct (Hrest e2 H2) as (ph & Hph & _).
    unfold not_after. rewrite (Hload e1 H1), Hph. cbn. lia.
Qed.

End Stages.

(** * Overlapping calls: what every schedule keeps *)

Lemma proc_induction {A} (P : proc A -> Prop) :
  (forall c, P (Fin c)) ->
  (forall wt r, (forall w, P (fst (r w))) -> P (Wait wt r)) ->
  forall p, P p.
Proof.
  intros Hfin Hwait. fix IH 1. intros [c | wt r].
  - apply Hfin.
  - apply Hwait. intros w. apply IH.
Qed.

Section TameLemmas.
Context (Pre : World -> Prop) (R : relation World) (hot : string -> Prop).
Context `{!PreOrder R}.
Hypothesis R_Pre : forall w w', R w w' -> Pre w -> Pre w'.

Lemma lift_atame {A} (m : Js A) : (forall w, Pre w -> R w (snd (m w))) -> atame Pre R hot (lift m).
Proof.
  intros Hm. split; intros w; cbn; [ constructor | ]. intros Hw. split; [ by apply Hm | exact I ].
Qed.

Lemma await_tame wt w : tame Pre R hot (fst (await wt w)).
Proof.
  cbn. constructor; [ intros w'; constructor | ].
  intros _ w' _. split; [ reflexivity | exact I ].
Qed.

Lemma await_atame wt : ~ busy hot wt -> atame Pre R hot (await wt).
Proof.
  intros Hwt. split; intros w; [ apply await_tame | ].
  intros _. cbn. split; [ reflexivity | exact Hwt ].
Qed.

Lemma pbind_tame {A B} (p : proc A) (k : A -> Async B) w :
  tame Pre R hot p -> (forall a, atame Pre R hot (k a)) ->
  tame Pre R hot (fst (pbind p k w)) /\
  (calm hot p -> Pre w -> R w (snd (pbind p k w)) /\ calm hot (fst (pbind p k w))).
Proof.
  intros Hp Hk. revert w. induction Hp as [[a | e] | wt r Hr IH Hstep]; intros w; cbn.
  - split; [ apply Hk | ]. intros _ Hw. by apply Hk.
  - split; [ constructor | ]. intros _ _. split; [ reflexivity | exact I ].
  - split.
    + constructor; [ intros w'; apply IH | ].
      intros Hwt w' Hw'. destruct (Hstep Hwt w' Hw') as [HR Hcalm].
      destruct (IH w' (snd (r w'))) as [_ Hnext].
      destruct (Hnext Hcalm (R_Pre _ _ HR Hw')) as [HR' Hcalm'].
      split; [ by etrans | exact Hcalm' ].
    + intros Hwt _. split; [ reflexivity | exact Hwt ].
Qed.

Lemma abind_atame {A B} (m : Async A) (k : A -> Async B) :
  atame Pre R hot m -> (forall a, atame Pre R hot (k a)) -> atame Pre R hot (abind m k).
Proof.
  intros [Hm1 Hm2] Hk. split; intros w; unfold abind.
  - by apply pbind_tame.
  - intros Hw. destruct (Hm2 w Hw) as [HR Hcalm].
    destruct (pbind_tame (fst (m w)) k (snd (m w)) (Hm1 w) Hk) as [_ Hnext].
    destruct (Hnext Hcalm (R_Pre _ _ HR Hw)) as [HR' Hcalm'].
    split; [ by etrans | exact Hcalm' ].
Qed.

Lemma pcatch_tame {A} (p : proc A) (h : exn -> Js A) w :
  tame Pre R hot p -> (forall e w, Pre w -> R w (snd (h e w))) ->
  tame Pre R hot (fst (pcatch p h w)) /\
  (calm hot p -> Pre w -> R w (snd (pcatch p h w)) /\ calm hot (fst (pcatch p h w))).
Proof.
  intros Hp Hh. revert w. induction Hp as [[a | e] | wt r Hr IH Hstep]; intros w; cbn.
  - split; [ constructor | ]. intros _ _. split; [ reflexivity | exact I ].
  - split; [ constructor | ]. intros _ Hw. split; [ by apply Hh | exact I ].
  - split.
    + constructor; [ intros w'; apply IH | ].
      intros Hwt w' Hw'. destruct (Hstep Hwt w' Hw') as [HR Hcalm].
      destruct (IH w' (snd (r w'))) as [_ Hnext].
      destruct (Hnext Hcalm (R_Pre _ _ HR Hw')) as [HR' Hcalm'].
      split; [ by etrans | exact Hcalm' ].
    + intros Hwt _. split; [ reflexivity | exact Hwt ].
Qed.

Lemma atry_catch_atame {A} (m : Async A) (h : exn -> Js A) :
  atame Pre R hot m -> (forall e w, Pre w -> R w (snd (h e w))) -> atame Pre R hot (atry_catch m h).
Proof.
  intros [Hm1 Hm2] Hh. split; intros w; unfold atry_catch.
  - by apply pcatch_tame.
  - intros Hw. destruct (Hm2 w Hw) as [HR Hcalm].
    destruct (pcatch_tame (fst (m w)) h (snd (m w)) (Hm1 w) Hh) as [_ Hnext].
    destruct (Hnext Hcalm (R_Pre _ _ HR Hw)) as [HR' Hcalm'].
    split; [ by etrans | exact Hcalm' ].
Qed.

Lemma pfinally_tame {A} (p : proc A) (fin : Js unit) w :
  tame Pre R hot p -> (forall w, Pre w -> R w (snd (fin w))) ->
  tame Pre R hot (fst (pfinally p fin w)) /\
  (calm hot p -> Pre w -> R w (snd (pfinally p fin w)) /\ calm hot (fst (pfinally p fin w))).
Proof.
  intros Hp Hfin. revert w. induction Hp as [c | wt r Hr IH Hstep]; intros w; cbn.
  - pose proof (Hfin w) as Hw. destruct (fin w) as [[[] | e] w2]; cbn in *.
    + split; [ constructor | ]. intros _ HP. split; [ by apply Hw | exact I ].
    + split; [ constructor | ]. intros _ HP. split; [ by apply Hw | exact I ].
  - split.
    + constructor; [ intros w'; apply IH | ].
      intros Hwt w' Hw'. destruct (Hstep Hwt w' Hw') as [HR Hcalm].
      destruct (IH w' (snd (r w'))) as [_ Hnext].
      destruct (Hnext Hcalm (R_Pre _ _ HR Hw')) as [HR' Hcalm'].
      split; [ by etrans | exact Hcalm' ].
    + intros Hwt _. split; [ reflexivity | exact Hwt ].
Qed.

Lemma atry_finally_atame {A} (m : Async A) (fin : Js unit) :
  atame Pre R hot m -> (forall w, Pre w -> R w (snd (fin w))) -> atame Pre R hot (atry_finally m fin).
Proof.
  intros [Hm1 Hm2] Hfin. split; intros w; unfold atry_finally.
  - by apply pfinally_tame.
  - intros Hw. destruct (Hm2 w Hw) as [HR Hcalm].
    destruct (pfinally_tame (fst (m w)) fin (snd (m w)) (Hm1 w) Hfin) as [_ Hnext].
    destruct (Hnext Hcalm (R_Pre _ _ HR Hw)) as [HR' Hcalm'].
    split; [ by etrans | exact Hcalm' ].
Qed.

(** *** The event loop *)

Lemma park_tame p w waiting :
  tame Pre R hot p -> pool_tame Pre R hot waiting ->
  pool_tame Pre R hot (pool (park p w waiting)).
Proof.
  intros Hp Hpool. destruct p as [c | wt r]; cbn; [ exact Hpool | ].
  apply Forall_app. split; [ exact Hpool | ]. by apply Forall_singleton.
Qed.

Lemma park_calm p w waiting :
  calm hot p -> pool_calm hot waiting -> pool_calm hot (pool (park p w waiting)).
Proof.
  intros Hp Hpool. destruct p as [c | wt r]; cbn; [ exact Hpool | ].
  apply Forall_app. split; [ exact Hpool | ]. by apply Forall_singleton.
Qed.

Lemma park_world p w waiting : world (park p w waiting) = w.
Proof. by destruct p. Qed.

Lemma spawn_keeps m s :
  atame Pre R hot m -> pool_tame Pre R hot (pool s) ->
  pool_tame Pre R hot (pool (spawn m s)) /\
  (Pre (world s) -> pool_calm hot (pool s) ->
   R (world s) (world (spawn m s)) /\ pool_calm hot (pool (spawn m s))).
Proof.
  intros [Hm1 Hm2] Hpool. unfold spawn. split.
  - by apply park_tame.
  - intros Hw Hcalm. destruct (Hm2 _ Hw) as [HR Hc]. rewrite park_world.
    split; [ exact HR | by apply park_calm ].
Qed.

Lemma resume_keeps i s :
  pool_tame Pre R hot (pool s) ->
  pool_tame Pre R hot (pool (resume i s)) /\
  (Pre (world s) -> pool_calm hot (pool s) ->
   R (world s) (world (resume i s)) /\ pool_calm hot (pool (resume i s))).
Proof.
  intros Hpool. unfold resume. destruct (pool s !! i) as [[wt r] | ] eqn:Hi.
  - pose proof (proj1 (Forall_lookup _ _) Hpool i _ Hi) as Ht. cbn in Ht.
    inversion Ht as [ | wt' r' Hr Hstep ]; subst.
    assert (pool_tame Pre R hot (delete i (pool s))) as Hdel
      by (eapply Forall_delete; exact Hpool).
    split.
    + apply park_tame; [ apply Hr | exact Hdel ].
    + intros Hw Hcalm.
      pose proof (proj1 (Forall_lookup _ _) Hcalm i _ Hi) as Hwt. cbn in Hwt.
      destruct (Hstep Hwt _ Hw) as [HR Hc]. rewrite park_world.
      split; [ exact HR | ]. apply park_calm; [ exact Hc | ].
      by apply Forall_delete.
  - split; [ exact Hpool | ]. intros _ Hcalm. split; [ reflexivity | exact Hcalm ].
Qed.

End TameLemmas.

(** *** The methods *)

Section TameMethods.
Context (env : Env).
Context (Pre : World -> Prop) (R : relation World) (hot : string -> Prop).
Context `{!PreOrder R}.
Hypothesis R_Pre : forall w w', R w w' -> Pre w -> Pre w'.
Hypothesis R_evolves : forall w w', evolves w w' -> R w w'.
Hypothesis hot_miss : forall c w, Pre w -> cache w !! c = None -> ~ hot (partial_url c).
Hypothesis R_store :
  forall c content w,
    Pre w -> ~ hot (partial_url c) -> R w (set_cache (<[c := content]> (cache w)) w).

Lemma lift_evolves {A} (m : Js A) : preserves evolves m -> atame Pre R hot (lift m).
Proof. intros Hm. apply lift_atame. intros w _. apply R_evolves, Hm. Qed.

Lemma emit_evolves e : (forall url, e <> EFetch url) -> preserves evolves (emit e).
Proof. intros He w. by apply evolves_emit. Qed.

Lemma fetch_issue_evolves c w :
  cache w !! c = None -> evolves w (snd (fetch_issue (partial_url c) w)).
Proof.
  intros Hmiss. destruct w as [cur ca pf le ac dt lh rq tr]. cbn in *.
  split; cbn; try done; try lia; [ by apply prefix_app_r | ].
  intros c' [m Hm]. emitted_norm. rewrite list_elem_of_singleton. intros Heq.
  assert (partial_url c' = partial_url c) as Hu by congruence.
  apply partial_url_inj in Hu. congruence.
Qed.

Local Hint Resolve emit_evolves : js.
Local Hint Extern 1 (atame _ _ _ (abind _ _)) =>
  apply (abind_atame Pre R hot R_Pre); [ | intros ] : js.
Local Hint Extern 1 (atame _ _ _ (lift _)) => apply lift_evolves : js.
Local Hint Extern 1 (atame _ _ _ (await WTimer)) =>
  apply (await_atame Pre R hot); intros [] : js.
Local Hint Extern 3 (atame _ _ _ (match ?x with _ => _ end)) => destruct x : js.
Local Hint Extern 1 (preserves _ (ret _)) => apply (preserves_ret evolves) : js.
Local Hint Extern 1 (preserves _ (throw _)) => apply (preserves_throw evolves) : js.
Local Hint Extern 1 (preserves _ (get _)) => apply (preserves_get evolves) : js.
Local Hint Extern 1 (preserves _ (call _ _)) => apply (preserves_call evolves) : js.
Local Hint Extern 1 (preserves _ (emit _)) => apply emit_evolves; done : js.
Local Hint Extern 2 (preserves _ (modify _)) =>
  apply (preserves_modify evolves); intros; apply evolves_same_trace; cbn;
    (done || set_solver) : js.
Local Hint Resolve showLoading_evolves hideLoading_evolves updatePageTitle_evolves
  updateActiveNavigation_evolves initializePageComponents_evolves
  trackPageView_evolves loadRoute_catch_evolves : js.

Lemma write_style_evolves o t : preserves evolves (write_style o t).
Proof.
  intros w. apply evolves_same_trace; cbn; try done.
  destruct (appContainer w); cbn; [ apply is_Some_Some_iff | done ].
Qed.

Lemma write_innerHTML_evolves html : preserves evolves (write_innerHTML html).
Proof.
  intros w. apply evolves_same_trace; cbn; try done.
  destruct (appContainer w); cbn; [ apply is_Some_Some_iff | done ].
Qed.

Local Hint Resolve write_style_evolves write_innerHTML_evolves : js.

Lemma loadComponentA_atame c : atame Pre R hot (loadComponentA env c).
Proof.
  assert (forall e w, R w (snd (emit (EConsoleError (component_error_label c) e) w)))
    as Hlog by (intros e w; by apply R_evolves, evolves_emit).
  split; intros w.
  - unfold loadComponentA, abind, lift, get. cbn [fst snd pbind].
    destruct (cache w !! c) as [content | ]; cbn; [ constructor | ].
    constructor.
    + intros w1. cbn. unfold fetch_answer.
      destruct (network env (requests w) (partial_url c)) as [reason | status body]; cbn;
        [ constructor | ].
      destruct (ok status); cbn; [ | constructor ].
      constructor.
      * intros w2. destruct body; cbn; constructor.
      * intros Hcalm w2 Hw2. destruct body as [content | ]; cbn.
        -- split; [ | exact I ].
           transitivity (set_cache (<[c := content]> (cache w2)) w2);
             [ by apply R_store | ].
           apply R_evolves.
           by apply (evolves_emit (ECacheSet c) (set_cache (<[c := content]> (cache w2)) w2)).
        -- split; [ apply Hlog | exact I ].
    + intros Hcalm w1 Hw1. cbn. unfold fetch_answer.
      destruct (network env (requests w) (partial_url c)) as [reason | status body]; cbn;
        [ split; [ apply Hlog | exact I ] | ].
      destruct (ok status); cbn; [ | split; [ apply Hlog | exact I ] ].
      split; [ reflexivity | exact Hcalm ].
  - intros Hw. unfold loadComponentA, abind, lift, get. cbn [fst snd pbind].
    destruct (cache w !! c) as [content | ] eqn:Hc; cbn; [ split; [ reflexivity | exact I ] | ].
    split; [ | by apply (hot_miss c w) ].
    apply R_evolves. by apply (fetch_issue_evolves c w).
Qed.

Local Hint Resolve loadComponentA_atame : js.

Lemma renderContentA_atame content : atame Pre R hot (renderContentA env content).
Proof. unfold renderContentA. auto 40 with js. Qed.

Local Hint Resolve renderContentA_atame : js.

Lemma loadRoute_tryA_atame r : atame Pre R hot (loadRoute_tryA env r).
Proof. unfold loadRoute_tryA. auto 40 with js. Qed.

Lemma loadRouteA_atame p : atame Pre R hot (loadRouteA env p).
Proof.
  unfold loadRouteA. destruct (resolve p) as [r | ]; [ | auto with js ].
  apply (abind_atame Pre R hot R_Pre); [ auto with js | intros current ].
  case_decide; [ auto with js | ].
  apply (abind_atame Pre R hot R_Pre); [ auto with js | intros _ ].
  apply (atry_finally_atame Pre R hot R_Pre);
    [ | intros w _; apply R_evolves, hideLoading_evolves ].
  apply (atry_catch_atame Pre R hot R_Pre);
    [ apply loadRoute_tryA_atame | intros e w _; apply R_evolves, loadRoute_catch_evolves ].
Qed.

Lemma prefetchRouteA_atame p : atame Pre R hot (prefetchRouteA env p).
Proof.
  unfold prefetchRouteA.
  apply (abind_atame Pre R hot R_Pre); [ auto with js | intros seen ].
  case_decide; [ auto with js | ].
  destruct (defineRoutes !! p) as [r | ]; [ | auto with js ].
  apply (atry_catch_atame Pre R hot R_Pre);
    [ auto 20 with js | intros e w _; by apply R_evolves, evolves_emit ].
Qed.

Lemma navigateToA_atame p b : atame Pre R hot (navigateToA env p b).
Proof.
  unfold navigateToA.
  apply (abind_atame Pre R hot R_Pre); [ | intros _; apply loadRouteA_atame ].
  apply lift_evolves. destruct b; [ | apply (preserves_ret evolves) ].
  unfold setHash. apply (preserves_bind evolves); auto with js.
Qed.

Lemma handleRouteA_atame : atame Pre R hot (handleRouteA env).
Proof.
  unfold handleRouteA.
  apply (abind_atame Pre R hot R_Pre); [ auto with js | intros; apply loadRouteA_atame ].
Qed.

Lemma start_atame a : atame Pre R hot (start env a).
Proof.
  destruct a as [p | h | p]; cbn.
  - apply navigateToA_atame.
  - apply (abind_atame Pre R hot R_Pre); [ auto with js | intros; apply handleRouteA_atame ].
  - apply prefetchRouteA_atame.
Qed.

(** Every schedule, from a pool of tame calls. *)
Lemma run_tame ticks s :
  pool_tame Pre R hot (pool s) -> pool_tame Pre R hot (pool (run env ticks s)).
Proof.
  revert s. induction ticks as [ | [a | i] ticks IH ]; intros s Hs; cbn; [ exact Hs | | ].
  - apply IH. apply (spawn_keeps Pre R hot (start env a) s (start_atame a) Hs).
  - apply IH. apply (resume_keeps Pre R hot i s Hs).
Qed.

Lemma run_keeps ticks s :
  pool_tame Pre R hot (pool s) -> Pre (world s) -> pool_calm hot (pool s) ->
  R (world s) (world (run env ticks s)) /\
  pool_calm hot (pool (run env ticks s)).
Proof.
  revert s. induction ticks as [ | [a | i] ticks IH ]; intros s Hs Hw Hcalm; cbn.
  - split; [ reflexivity | exact Hcalm ].
  - destruct (spawn_keeps Pre R hot (start env a) s (start_atame a) Hs) as [Ht Hk].
    destruct (Hk Hw Hcalm) as [HR Hc].
    destruct (IH _ Ht (R_Pre _ _ HR Hw) Hc) as [HR' Hc'].
    split; [ by etrans | exact Hc' ].
  - destruct (resume_keeps Pre R hot i s Hs) as [Ht Hk].
    destruct (Hk Hw Hcalm) as [HR Hc].
    destruct (IH _ Ht (R_Pre _ _ HR Hw) Hc) as [HR' Hc'].
    split; [ by etrans | exact Hc' ].
Qed.

End TameMethods.

(** *** What all schedules only add to *)

#[global] Instance grows_preorder : PreOrder grows.
Proof.
  split.
  - intros w. by split.
  - intros w1 w2 w3 [] []. split; by etrans.
Qed.

Lemma evolves_grows w w' : evolves w w' -> grows w w'.
Proof.
  intros []. split; try done. by apply subseteq_dom.
Qed.

Lemma never_busy (waiting : list (wait * (World -> proc unit * World))) :
  pool_calm (fun _ => False) waiting.
Proof. apply Forall_forall. intros [[n url | n url | ] r] _; cbn; tauto. Qed.

Lemma run_grows env ticks0 ticks w0 :
  grows (world (run env ticks0 (mkSys w0 [])))
        (world (run env ticks (run env ticks0 (mkSys w0 [])))).
Proof.
  assert (forall w w', grows w w' -> True -> True) as HPre by done.
  assert (forall c w, True -> cache w !! c = None -> ~ False) as Hmiss by tauto.
  assert (forall c content w,
            True -> ~ False -> grows w (set_cache (<[c := content]> (cache w)) w)) as Hstore.
  { intros c content w _ _. split; cbn; try done.
    rewrite dom_insert. set_solver. }
  apply (run_keeps env (fun _ => True) grows (fun _ => False) HPre evolves_grows
           Hmiss Hstore ticks); [ | done | apply never_busy ].
  apply (run_tame env (fun _ => True) grows (fun _ => False) HPre evolves_grows
           Hmiss Hstore ticks0). constructor.
Qed.

(** *** An entry that no call is loading *)

#[global] Instance keeps_entry_preorder c content : PreOrder (keeps_entry c content).
Proof.
  split.
  - intros w Hw. split; [ done | ]. split; [ done | ].
    rewrite emitted_refl. apply not_elem_of_nil.
  - intros w1 w2 w3 H12 H23 Hw. destruct (H12 Hw) as (Hp12 & Hw2 & Hn12).
    destruct (H23 Hw2) as (Hp23 & Hw3 & Hn23).
    split; [ by etrans | ]. split; [ done | ].
    rewrite (prefix_emitted_trans _ _ _ Hp12 Hp23). intros Hin.
    apply elem_of_app in Hin as [Hin | Hin]; tauto.
Qed.




(** *** Without overlap: the methods of the router *)

Lemma bind_ext {A B} (m m' : Js A) (k k' : A -> Js B) w :
  (forall w, m w = m' w) -> (forall a w, k a w = k' a w) -> bind m k w = bind m' k' w.
Proof.
  intros Hm Hk. unfold bind. rewrite Hm. destruct (m' w) as [[a | e] w1]; [ apply Hk | done ].
Qed.

Lemma try_catch_ext {A} (m m' : Js A) (h : exn -> Js A) w :
  (forall w, m w = m' w) -> try_catch m h w = try_catch m' h w.
Proof. intros Hm. unfold try_catch. by rewrite Hm. Qed.

Lemma try_finally_ext {A} (m m' : Js A) (fin : Js unit) w :
  (forall w, m w = m' w) -> try_finally m fin w = try_finally m' fin w.
Proof. intros Hm. unfold try_finally. by rewrite Hm. Qed.

Lemma uninterrupted_lift {A} (m : Js A) w : uninterrupted (lift m) w = m w.
Proof. unfold uninterrupted, lift. cbn. by destruct (m w). Qed.

Lemma drain_pbind {A B} (p : proc A) (k : A -> Async B) w :
  drain (fst (pbind p k w)) (snd (pbind p k w)) =
    bind (drain p) (fun a => uninterrupted (k a)) w.
Proof.
  revert w. induction p as [[a | e] | wt r IH] using proc_induction; intros w; cbn;
    try reflexivity.
  rewrite IH. reflexivity.
Qed.

Lemma uninterrupted_abind {A B} (m : Async A) (k : A -> Async B) w :
  uninterrupted (abind m k) w = bind (uninterrupted m) (fun a => uninterrupted (k a)) w.
Proof.
  unfold uninterrupted at 1, abind. rewrite drain_pbind.
  unfold bind, uninterrupted. by destruct (m w).
Qed.

Lemma drain_pcatch {A} (p : proc A) (h : exn -> Js A) w :
  drain (fst (pcatch p h w)) (snd (pcatch p h w)) = try_catch (drain p) h w.
Proof.
  revert w. induction p as [[a | e] | wt r IH] using proc_induction; intros w; cbn;
    try reflexivity.
  - unfold try_catch. cbn. by destruct (h e w).
  - rewrite IH. reflexivity.
Qed.

Lemma uninterrupted_atry_catch {A} (m : Async A) (h : exn -> Js A) w :
  uninterrupted (atry_catch m h) w = try_catch (uninterrupted m) h w.
Proof.
  unfold uninterrupted at 1, atry_catch. rewrite drain_pcatch.
  unfold try_catch, uninterrupted. by destruct (m w).
Qed.

Lemma drain_pfinally {A} (p : proc A) (fin : Js unit) w :
  drain (fst (pfinally p fin w)) (snd (pfinally p fin w)) = try_finally (drain p) fin w.
Proof.
  revert w. induction p as [c | wt r IH] using proc_induction; intros w; cbn.
  - unfold try_finally. cbn. by destruct (fin w) as [[[] | e] w2].
  - rewrite IH. reflexivity.
Qed.

Lemma uninterrupted_atry_finally {A} (m : Async A) (fin : Js unit) w :
  uninterrupted (atry_finally m fin) w = try_finally (uninterrupted m) fin w.
Proof.
  unfold uninterrupted at 1, atry_finally. rewrite drain_pfinally.
  unfold try_finally, uninterrupted. by destruct (m w).
Qed.

Section Uninterrupted.
Context (env : Env).

(** A chain of stretches without a wait. *)
Local Ltac uninterrupted_chain :=
  repeat first
    [ rewrite uninterrupted_lift
    | rewrite uninterrupted_abind; apply bind_ext; [ intros | intros ] ];
  try reflexivity.

Lemma uninterrupted_loadComponentA c w :
  uninterrupted (loadComponentA env c) w = loadComponent env c w.
Proof.
  unfold uninterrupted, loadComponentA, loadComponent, abind, lift, get, bind.
  cbn [fst snd pbind]. destruct (cache w !! c) as [content | ]; [ reflexivity | ].
  unfold try_catch, fetch, bind, get, modify, emit, fetch_answer. cbn.
  destruct (network env (requests w) (partial_url c)) as [reason | status body]; cbn;
    [ reflexivity | ].
  destruct (ok status); cbn; [ | reflexivity ].
  destruct body; reflexivity.
Qed.

Lemma uninterrupted_renderContentA content w :
  uninterrupted (renderContentA env content) w = renderContent env content w.
Proof.
  unfold uninterrupted, renderContentA, renderContent, abind, lift, get, bind.
  cbn [fst snd pbind]. destruct (appContainer w) as [c | ] eqn:Happ; [ | reflexivity ].
  destruct w as [cur ca pf le ac dt lh rq tr]. cbn in Happ. subst ac.
  unfold call, modify, emit, write_style, write_innerHTML. cbn.
  destruct (raises env triggerContentAnimations_dom); cbn; [ reflexivity | ].
  destruct (raises env manageFocus_dom); reflexivity.
Qed.

Lemma uninterrupted_loadRoute_tryA r w :
  uninterrupted (loadRoute_tryA env r) w = loadRoute_try env r w.
Proof.
  unfold loadRoute_tryA, loadRoute_try.
  rewrite uninterrupted_abind. apply bind_ext; [ apply uninterrupted_loadComponentA | ].
  intros content w1.
  rewrite uninterrupted_abind. apply bind_ext; [ apply uninterrupted_lift | intros _ w2 ].
  rewrite uninterrupted_abind. apply bind_ext; [ apply uninterrupted_lift | intros _ w3 ].
  rewrite uninterrupted_abind. apply bind_ext; [ apply uninterrupted_renderContentA | ].
  intros _ w4. uninterrupted_chain.
Qed.

Lemma uninterrupted_loadRouteA p w :
  uninterrupted (loadRouteA env p) w = loadRoute env p w.
Proof.
  unfold loadRouteA, loadRoute. destruct (resolve p) as [r | ];
    [ | apply uninterrupted_lift ].
  rewrite uninterrupted_abind. apply bind_ext; [ apply uninterrupted_lift | ].
  intros current w1. case_decide; [ apply uninterrupted_lift | ].
  rewrite uninterrupted_abind. apply bind_ext; [ apply uninterrupted_lift | intros _ w2 ].
  rewrite uninterrupted_atry_finally. apply try_finally_ext. intros w3.
  rewrite uninterrupted_atry_catch. apply try_catch_ext. apply uninterrupted_loadRoute_tryA.
Qed.

Lemma uninterrupted_prefetchRouteA p w :
  uninterrupted (prefetchRouteA env p) w = prefetchRoute env p w.
Proof.
  unfold prefetchRouteA, prefetchRoute.
  rewrite uninterrupted_abind. apply bind_ext; [ apply uninterrupted_lift | ].
  intros seen w1. case_decide; [ apply uninterrupted_lift | ].
  destruct (defineRoutes !! p) as [r | ]; [ | apply uninterrupted_lift ].
  rewrite uninterrupted_atry_catch. apply try_catch_ext. intros w2.
  rewrite uninterrupted_abind. apply bind_ext; [ apply uninterrupted_loadComponentA | ].
  intros _ w3. uninterrupted_chain.
Qed.

(** Each listener's call, left alone, is the step of a session. *)
Lemma uninterrupted_start a w : uninterrupted (start env a) w = step env a w.
Proof.
  destruct a as [p | h | p]; unfold start, step.
  - unfold navigateToA, navigateTo.
    rewrite uninterrupted_abind. apply bind_ext; [ apply uninterrupted_lift | ].
    intros _ w1. apply uninterrupted_loadRouteA.
  - rewrite uninterrupted_abind. apply bind_ext; [ apply uninterrupted_lift | ].
    intros _ w1. unfold handleRouteA, handleRoute.
    rewrite uninterrupted_abind. apply bind_ext; [ apply uninterrupted_lift | ].
    intros hash w2. apply uninterrupted_loadRouteA.
  - apply uninterrupted_prefetchRouteA.
Qed.

End Uninterrupted.

(** *** Sessions among the schedules *)

Lemma run_app env ticks1 ticks2 s :
  run env (ticks1 ++ ticks2) s = run env ticks2 (run env ticks1 s).
Proof. revert s. induction ticks1 as [ | t ticks1 IH ]; intros s; cbn; [ done | apply IH ]. Qed.

(** Resuming the only call that waits, again and again, runs it to its end. *)
Lemma resume_to_the_end env (p : proc unit) w :
  exists ticks, run env ticks (park p w []) = boot (snd (drain p w)).
Proof.
  revert w. induction p as [c | wt r IH] using proc_induction; intros w.
  - by exists [].
  - destruct (IH w (snd (r w))) as [ticks Hticks].
    exists (Resume 0 :: ticks). exact Hticks.
Qed.

(** A session is the schedule on which every call ends before the next
    listener fires. *)
Lemma session_is_a_schedule env acts w :
  exists ticks, run env ticks (boot w) = boot (session env acts w).
Proof.
  revert w. induction acts as [ | a acts IH ]; intros w; [ by exists [] | ].
  destruct (resume_to_the_end env (fst (start env a w)) (snd (start env a w)))
    as [ticks1 H1].
  destruct (IH (snd (step env a w))) as [ticks2 H2].
  exists (Fire a :: ticks1 ++ ticks2). cbn [run tick_step].
  rewrite run_app.
  change (spawn (start env a) (boot w))
    with (park (fst (start env a w)) (snd (start env a w)) []).
  rewrite H1.
  change (drain (start env a w).1 (start env a w).2) with (uninterrupted (start env a) w).
  rewrite uninterrupted_start. exact H2.
Qed.

(** *** One call that misses the cache *)



(** * The claims *)

(** ** C1: re-navigation to the current page *)

(** C1, counterexample.  The empty path and ["home"] resolve to routes with
    the same pageId ["home"], and yet: on the page reached through the empty
    path a navigation to ["home"] shows the loading indicator, sets the
    title, replaces the content and runs the hooks again; so does a
    navigation to the empty path on the page reached through ["home"]. *)
Lemma home_and_root_render_over_each_other :
  component <$> resolve "" = Some "home" /\
  component <$> resolve "home" = Some "home" /\
  currentRoute at_root = Some "" /\
  emitted at_root (snd (loadRoute env_ok "home" at_root)) =
    [ELoading "block"; ETitle "Home | Kattali Textile Ltd."; EActiveNav "home";
     EFadeOut; EInnerHTML "<h1>partials/home.html</h1>"; EContentAnimations;
     EFadeIn; EFocus; ECurrentRoute "home";
     EHook initializeKineticText; EHook initializeScrollAnimations;
     EHook initializeHomeComponents; EHook initializeTiltCards;
     EPageView "Home"; ELoading "none"] /\
  currentRoute at_home = Some "home" /\
  emitted at_home (snd (loadRoute env_ok "" at_home)) =
    [ELoading "block"; ETitle "Home | Kattali Textile Ltd."; EActiveNav "";
     EFadeOut; EInnerHTML "<h1>partials/home.html</h1>"; EContentAnimations;
     EFadeIn; EFocus; ECurrentRoute "";
     EHook initializeKineticText; EHook initializeScrollAnimations;
     EHook initializeHomeComponents; EHook initializeTiltCards;
     EPageView "Home"; ELoading "none"].
Proof. vm_compute. repeat split; reflexivity. Qed.

(** C1, as amended.  [loadRoute] returns at once, with the world (cache,
    request count, container, title, trace) exactly as it was, if and only if
    the current-route field holds the path of the resolved route. *)
Theorem loadRoute_noop_iff_same_path env p r w :
  resolve p = Some r ->
  (loadRoute env p w = (Normal tt, w) <-> currentRoute w = Some (path r)).
Proof.
  intros Hr. split.
  - intros Heq. destruct (decide (currentRoute w = Some (path r))) as [ | Hne]; [ done | ].
    pose proof (loadRoute_progress env p r w Hr Hne) as Hlt.
    rewrite Heq in Hlt. cbn in Hlt. lia.
  - by apply loadRoute_same_path.
Qed.

Lemma loadRoute_noop_iff_same_path_witness :
  resolve "about" = Some (mkRoute "about" "about" "About Us") /\
  (loadRoute env_ok "about" at_about = (Normal tt, at_about) <->
   currentRoute at_about = Some "about").
Proof.
  split; [ vm_compute; reflexivity | ].
  apply (loadRoute_noop_iff_same_path env_ok "about" (mkRoute "about" "about" "About Us")).
  vm_compute; reflexivity.
Defined.

(** ** C2: the current-route field *)

(** C2, counterexample.  The navigation to the empty path completes and
    renders the home fragment; the field then holds the path [""], not the
    pageId ["home"] of the route. *)
Lemma root_navigation_stores_the_empty_path :
  fst (loadRoute env_ok "" fresh) = Normal tt /\
  resolve "" = Some root_route /\
  component root_route = "home" /\
  innerHTML <$> appContainer at_root = Some "<h1>partials/home.html</h1>" /\
  currentRoute at_root = Some "" /\
  currentRoute at_root <> Some (component root_route).
Proof. vm_compute. repeat split; try reflexivity. discriminate. Qed.

(** The path and the component of a resolved route differ for the empty path
    only. *)
Lemma resolve_path_component p r :
  resolve p = Some r -> (path r = component r <-> p <> "").
Proof.
  intros Hr. split.
  - intros Heq ->. unfold resolve in Hr. rewrite defineRoutes_root in Hr.
    by injection Hr as <-.
  - intros Hp.
    destruct (route_list_component r (resolve_in_table p r Hr)) as [ | ->]; [ done | ].
    destruct (resolve_path p root_route Hr) as [ | [_ [=]]]. by cbn in *.
Qed.

(** C2, as amended.  After every navigation that was already on the route or
    whose [try] block completed, the field holds the path of the resolved
    route; that is the route's pageId unless the path is the empty one. *)
Theorem currentRoute_is_rendered_path env p r w :
  resolve p = Some r ->
  currentRoute w = Some (path r) \/
    fst (loadRoute_try env r (snd (showLoading w))) = Normal tt ->
  let w' := snd (loadRoute env p w) in
  currentRoute w' = Some (path r) /\
  (currentRoute w' = Some (component r) <-> p <> "").
Proof.
  intros Hr Hdone w'.
  assert (currentRoute w' = Some (path r)) as Hcur.
  { subst w'. destruct (decide (currentRoute w = Some (path r))) as [Hc | Hne].
    { by rewrite (loadRoute_same_path env p r w Hr Hc). }
    destruct Hdone as [ | Hn]; [ done | ].
    destruct (loadRoute_navigates env p r w Hr Hne) as (content & wl & _ & Ht & ->).
    rewrite Ht in Hn.
    pose proof (after_load_normal env r content wl Hn) as (_ & Hc & _).
    destruct (after_load env r content wl) as [[[] | e] wa]; [ | done ].
    cbn [fst snd] in *.
    by pose proof (hideLoading_frame wa) as (-> & _). }
  split; [ exact Hcur | ].
  rewrite Hcur, <- (resolve_path_component p r Hr).
  split; [ by intros [=] | by intros -> ].
Qed.

Lemma currentRoute_is_rendered_path_witness :
  resolve "" = Some root_route /\
  (currentRoute fresh = Some (path root_route) \/
     fst (loadRoute_try env_ok root_route (snd (showLoading fresh))) = Normal tt) /\
  currentRoute (snd (loadRoute env_ok "" fresh)) = Some (path root_route) /\
  (currentRoute (snd (loadRoute env_ok "" fresh)) = Some (component root_route) <->
   "" <> "").
Proof.
  split; [ vm_compute; reflexivity | ].
  split; [ right; vm_compute; reflexivity | ].
  apply (currentRoute_is_rendered_path env_ok "" root_route fresh).
  - vm_compute; reflexivity.
  - right; vm_compute; reflexivity.
Defined.

(** ** C3: a fragment that cannot be fetched *)

Lemma getErrorContent_not_blank c : getErrorContent c <> "".
Proof. unfold getErrorContent. cbn. discriminate. Qed.

(** C3.  When the fetch of a fragment fails (network error, status outside
    200-299, unreadable body), [loadComponent] logs the error, returns the
    fallback markup and leaves the cache as it was; the navigation still
    returns normally, with that markup in the container, the route current
    and the loading indicator hidden.  The fallback markup is the block
    headed "Content Unavailable" that names the component in its first
    paragraph and offers a retry button. *)
Theorem fetch_failure_falls_back env p r c w :
  resolve p = Some r ->
  currentRoute w <> Some (path r) ->
  cache w !! component r = None ->
  fetch_fails (network env (requests w) (partial_url (component r))) ->
  quiet env ->
  appContainer w = Some c ->
  let fallback :=
    "
      <div class=" +:+ String "034"%char ("error-content" +:+ String "034"%char (">
        <h2>Content Unavailable</h2>
        <p>Sorry, we're having trouble loading the " +:+ component r +:+ " page content.</p>
        <p>Please check your internet connection and try again.</p>
        <button onclick=" +:+ String "034"%char ("location.reload()" +:+ String "034"%char (" class="
      +:+ String "034"%char ("btn btn-secondary" +:+ String "034"%char ">Retry</button>
      </div>
    "))))) in
  let wl := snd (loadComponent env (component r) w) in
  let w' := snd (loadRoute env p w) in
  getErrorContent (component r) = fallback /\
  fst (loadComponent env (component r) w) = Normal fallback /\
  cache wl = cache w /\
  emitted w wl =
    [EFetch (partial_url (component r));
     EConsoleError (component_error_label (component r))
       (fetch_error (network env (requests w) (partial_url (component r))))] /\
  fst (loadRoute env p w) = Normal tt /\
  innerHTML <$> appContainer w' = Some fallback /\
  fallback <> "" /\
  cache w' = cache w /\
  currentRoute w' = Some (path r) /\
  loadingElement w' = (fun _ => "none") <$> loadingElement w.
Proof.
  intros Hr Hne Hmiss Hfail Hquiet Happ fallback wl w'.
  assert (getErrorContent (component r) = fallback) as Hfb by reflexivity.
  rewrite <- Hfb. clear Hfb fallback.
  pose proof (loadRoute_hides_loading env p r w Hr Hne) as Hhide.
  pose proof (loadRoute_returns env p w (or_intror Hquiet)) as Hret.
  subst wl w'. rewrite (loadComponent_miss_fail env _ w Hmiss Hfail). cbn [fst snd].
  destruct (loadRoute_navigates env p r w Hr Hne) as (content & wl & Hl & _ & Heq).
  rewrite Heq in *. clear Heq.
  pose proof (showLoading_frame w) as (_ & Hc0 & Hr0 & _ & Ha0 & _).
  rewrite loadComponent_miss_fail in Hl by (by rewrite ?Hc0, ?Hr0).
  injection Hl as Hcontent Hwl. subst content.
  assert (cache wl = cache w /\ appContainer wl = Some c) as [Hc1 Ha1].
  { subst wl. unfold set_trace, set_requests. cbn [cache appContainer].
    by rewrite Hc0, Ha0. }
  clear Hwl.
  pose proof (after_load_quiet env r (getErrorContent (component r)) wl Hquiet) as Hn.
  pose proof (after_load_normal _ _ _ _ Hn) as (_ & Hcur & Hcont & _).
  pose proof (after_load_frame env r (getErrorContent (component r)) wl) as (Hca & _).
  destruct (after_load env r (getErrorContent (component r)) wl) as [[[] | e] wa];
    [ | discriminate Hn ].
  cbn [fst snd] in *.
  pose proof (hideLoading_frame wa) as (Hh1 & Hh2 & _ & _ & Hh5 & _).
  split; [ reflexivity | ].
  split; [ reflexivity | ].
  split; [ by destruct w | ].
  split; [ apply emitted_app; by destruct w | ].
  split; [ exact Hret | ].
  split; [ by rewrite Hh5, Hcont, Ha1 | ].
  split; [ apply getErrorContent_not_blank | ].
  split; [ by rewrite Hh2, Hca | ].
  split; [ by rewrite Hh1 | exact Hhide ].
Qed.

Lemma fetch_failure_falls_back_witness :
  resolve "news" = Some (mkRoute "news" "news" "News & Updates") /\
  currentRoute fresh <> Some "news" /\
  cache fresh !! "news" = None /\
  fetch_fails (network env_500 (requests fresh) (partial_url "news")) /\
  quiet env_500 /\
  appContainer fresh = Some (mkContainer "" "1" "") /\
  fst (loadComponent env_500 "news" fresh) = Normal (getErrorContent "news") /\
  fst (loadRoute env_500 "news" fresh) = Normal tt /\
  innerHTML <$> appContainer (snd (loadRoute env_500 "news" fresh))
    = Some (getErrorContent "news") /\
  cache (snd (loadRoute env_500 "news" fresh)) = cache fresh.
Proof.
  assert (resolve "news" = Some (mkRoute "news" "news" "News & Updates")) as H1
    by (vm_compute; reflexivity).
  assert (currentRoute fresh <> Some "news") as H2 by discriminate.
  assert (cache fresh !! "news" = None) as H3 by reflexivity.
  assert (fetch_fails (network env_500 (requests fresh) (partial_url "news"))) as H4
    by (left; reflexivity).
  assert (quiet env_500) as H5 by (intros col; reflexivity).
  assert (appContainer fresh = Some (mkContainer "" "1" "")) as H6 by reflexivity.
  repeat (split; [ assumption | ]).
  destruct (fetch_failure_falls_back env_500 "news" _ _ fresh H1 H2 H3 H4 H5 H6)
    as (G0 & G1 & _ & _ & G4 & G5 & _ & G7 & _).
  rewrite <- G0 in G1, G5.
  repeat split; assumption.
Defined.

(** The scenario of the failing news fragment: the fallback is shown, and the
    next navigation, to the contact page, works as usual. *)
Example news_500_then_contact :
  innerHTML <$> appContainer (session env_news_500 [Click "news"] fresh)
    = Some (getErrorContent "news") /\
  cache (session env_news_500 [Click "news"] fresh) = ∅ /\
  innerHTML <$> appContainer (session env_news_500 [Click "news"; Click "contact"] fresh)
    = Some "<h1>partials/contact.html</h1>" /\
  currentRoute (session env_news_500 [Click "news"; Click "contact"] fresh)
    = Some "contact" /\
  loadingElement (session env_news_500 [Click "news"; Click "contact"] fresh)
    = Some "none".
Proof. vm_compute. repeat split; reflexivity. Qed.

(** ** C4: the fragment cache *)




(** ** C5: prefetching *)

(** [prefetchRoute] in closed form: the loader never throws, so a registered
    path that was not yet prefetched always ends up in the set. *)
Lemma prefetchRoute_eq env p w :
  prefetchRoute env p w =
    if decide (p ∈ prefetchedRoutes w) then (Normal tt, w)
    else match defineRoutes !! p with
         | None => (Normal tt, w)
         | Some r =>
             let wl := snd (loadComponent env (component r) w) in
             (Normal tt,
              set_trace (trace wl ++ [EPrefetched p])
                (set_prefetchedRoutes ({[p]} ∪ prefetchedRoutes wl) wl))
         end.
Proof.
  unfold prefetchRoute. unfold bind at 1, get. case_decide; [ reflexivity | ].
  destruct (defineRoutes !! p) as [r | ]; [ | reflexivity ].
  unfold try_catch, bind, modify, emit.
  destruct (loadComponent_normal env (component r) w) as [content Hc].
  destruct (loadComponent env (component r) w) as [c wl]. cbn in *. by subst c.
Qed.

Lemma loadComponent_requests env c w :
  requests (snd (loadComponent env c w)) =
    match cache w !! c with
    | Some _ => requests w
    | None => S (requests w)
    end.
Proof.
  destruct w as [cur ca pf le ac dt lh rq tr]. js_unfold. cbn.
  destruct (ca !! c); [ reflexivity | ]. js_run; reflexivity.
Qed.

(** C5, counterexample.  The prefetched set holds paths, and the paths [""]
    and ["home"] share the home fragment: when the server fails, prefetching
    the one and then the other requests that fragment twice.  And two
    prefetches of a page that a navigation has already cached request
    nothing at all. *)
Example alias_prefetch_fetches_twice :
  component <$> defineRoutes !! "" = Some "home" /\
  component <$> defineRoutes !! "home" = Some "home" /\
  requested (snd (prefetchRoute env_500 "home" (snd (prefetchRoute env_500 "" fresh))))
    = ["partials/home.html"; "partials/home.html"] /\
  prefetchedRoutes (snd (prefetchRoute env_500 "home" (snd (prefetchRoute env_500 "" fresh))))
    = {[ ""; "home" ]} /\
  cache at_about !! "about" = Some "<h1>partials/about.html</h1>" /\
  requests (snd (prefetchRoute env_ok "about" (snd (prefetchRoute env_ok "about" at_about))))
    = requests at_about.
Proof. vm_compute. repeat split; reflexivity. Qed.

(** C5, as amended.  The second of two [prefetchRoute] calls for the same
    path changes nothing: no request, no effect.  The two calls together
    issue at most one request, and exactly one when the path is registered,
    not yet prefetched and its fragment not yet cached, none otherwise.  The
    prefetch of another path with the same component is deduplicated by the
    cache alone: it requests the fragment again unless the first call has
    stored it.  No session, and no schedule of overlapping calls, removes a
    path from the prefetched set. *)
Theorem prefetch_twice_fetches_once env p w :
  prefetchRoute env p (snd (prefetchRoute env p w)) =
    (Normal tt, snd (prefetchRoute env p w)) /\
  requests (snd (prefetchRoute env p w)) <= S (requests w) /\
  (forall r,
     defineRoutes !! p = Some r -> p ∉ prefetchedRoutes w ->
     cache w !! component r = None ->
     requests (snd (prefetchRoute env p (snd (prefetchRoute env p w)))) = S (requests w)) /\
  (p ∈ prefetchedRoutes w \/ defineRoutes !! p = None \/
   (exists r, defineRoutes !! p = Some r /\ is_Some (cache w !! component r)) ->
   requests (snd (prefetchRoute env p (snd (prefetchRoute env p w)))) = requests w) /\
  (forall r q rq,
     defineRoutes !! p = Some r -> defineRoutes !! q = Some rq ->
     component rq = component r ->
     q ∉ prefetchedRoutes (snd (prefetchRoute env p w)) ->
     requests (snd (prefetchRoute env q (snd (prefetchRoute env p w)))) =
       match cache (snd (prefetchRoute env p w)) !! component r with
       | Some _ => requests (snd (prefetchRoute env p w))
       | None => S (requests (snd (prefetchRoute env p w)))
       end) /\
  (forall acts q, q ∈ prefetchedRoutes w -> q ∈ prefetchedRoutes (session env acts w)) /\
  (forall ticks0 ticks q,
     q ∈ prefetchedRoutes (world (run env ticks0 (boot w))) ->
     q ∈ prefetchedRoutes (world (run env (ticks0 ++ ticks) (boot w)))).
Proof.
  assert (prefetchRoute env p (snd (prefetchRoute env p w)) =
            (Normal tt, snd (prefetchRoute env p w))) as Hsecond.
  { rewrite (prefetchRoute_eq env p w).
    destruct (decide (p ∈ prefetchedRoutes w)) as [Hin | Hnin]; cbn [snd].
    - rewrite prefetchRoute_eq. by rewrite decide_True.
    - destruct (defineRoutes !! p) as [r | ] eqn:Hp; cbn [snd].
      + rewrite prefetchRoute_eq. rewrite decide_True; [ reflexivity | ].
        unfold set_trace, set_prefetchedRoutes. cbn [prefetchedRoutes]. set_solver.
      + rewrite prefetchRoute_eq. by rewrite decide_False, Hp. }
  split; [ exact Hsecond | ].
  split; [ | split; [ | split; [ | split; [ | split ] ] ] ].
  - rewrite prefetchRoute_eq. case_decide; cbn [snd]; [ lia | ].
    destruct (defineRoutes !! p) as [r | ]; cbn [snd]; [ | lia ].
    unfold set_trace, set_prefetchedRoutes. cbn [requests].
    rewrite loadComponent_requests. destruct (cache w !! component r); lia.
  - intros r Hp Hnin Hmiss. rewrite Hsecond. cbn [snd].
    rewrite prefetchRoute_eq, decide_False, Hp by done.
    unfold set_trace, set_prefetchedRoutes. cbn [requests snd].
    by rewrite loadComponent_requests, Hmiss.
  - intros Hnone. rewrite Hsecond. cbn [snd]. rewrite prefetchRoute_eq.
    case_decide; [ reflexivity | ].
    destruct Hnone as [Hin | [Hp | (r & Hp & [content Hhit])]]; [ done | | ].
    + by rewrite Hp.
    + rewrite Hp. cbn [snd]. unfold set_trace, set_prefetchedRoutes. cbn [requests].
      by rewrite loadComponent_requests, Hhit.
  - intros r q rq Hp Hq Hsame Hnin.
    rewrite (prefetchRoute_eq env q), decide_False, Hq by done.
    cbn [snd]. unfold set_trace, set_prefetchedRoutes. cbn [requests].
    by rewrite loadComponent_requests, Hsame.
  - intros acts q Hq.
    by apply (evolves_prefetched _ _ (session_evolves env acts w)).
  - intros ticks0 ticks q Hq. rewrite run_app.
    by apply (grows_prefetched _ _ (run_grows env ticks0 ticks w)).
Qed.

Lemma prefetch_twice_fetches_once_witness :
  defineRoutes !! "about" = Some (mkRoute "about" "about" "About Us") /\
  ("about" ∉ prefetchedRoutes fresh) /\
  cache fresh !! "about" = None /\
  requests (snd (prefetchRoute env_ok "about" (snd (prefetchRoute env_ok "about" fresh))))
    = S (requests fresh) /\
  is_Some (cache at_about !! "about") /\
  requests (snd (prefetchRoute env_ok "about" (snd (prefetchRoute env_ok "about" at_about))))
    = requests at_about /\
  defineRoutes !! "" = Some root_route /\
  defineRoutes !! "home" = Some home_route /\
  ("home" ∉ prefetchedRoutes (snd (prefetchRoute env_500 "" fresh))) /\
  cache (snd (prefetchRoute env_500 "" fresh)) !! component root_route = None /\
  requests (snd (prefetchRoute env_500 "home" (snd (prefetchRoute env_500 "" fresh))))
    = S (requests (snd (prefetchRoute env_500 "" fresh))).
Proof.
  assert (defineRoutes !! "about" = Some (mkRoute "about" "about" "About Us")) as H1
    by (vm_compute; reflexivity).
  assert ("about" ∉ prefetchedRoutes fresh) as H2 by (cbn; set_solver).
  assert (cache fresh !! "about" = None) as H3 by reflexivity.
  assert (is_Some (cache at_about !! "about")) as H4 by (vm_compute; eauto).
  assert (defineRoutes !! "" = Some root_route) as H5 by (vm_compute; reflexivity).
  assert (defineRoutes !! "home" = Some home_route) as H6 by (vm_compute; reflexivity).
  assert ("home" ∉ prefetchedRoutes (snd (prefetchRoute env_500 "" fresh))) as H7.
  { assert (prefetchedRoutes (snd (prefetchRoute env_500 "" fresh)) = {[ "" ]}) as ->
      by (vm_compute; reflexivity).
    by intros ?%elem_of_singleton. }
  assert (cache (snd (prefetchRoute env_500 "" fresh)) !! component root_route = None) as H8
    by (vm_compute; reflexivity).
  destruct (prefetch_twice_fetches_once env_ok "about" fresh) as (_ & _ & G3 & _).
  destruct (prefetch_twice_fetches_once env_ok "about" at_about) as (_ & _ & _ & G4 & _).
  destruct (prefetch_twice_fetches_once env_500 "" fresh) as (_ & _ & _ & _ & G5 & _).
  pose proof (G5 root_route "home" home_route H5 H6 eq_refl H7) as G.
  rewrite H8 in G.
  split; [ exact H1 | ]. split; [ exact H2 | ]. split; [ exact H3 | ].
  split; [ exact (G3 _ H1 H2 H3) | ]. split; [ exact H4 | ].
  split; [ exact (G4 (or_intror (or_intror (ex_intro _ _ (conj H1 H4))))) | ].
  split; [ exact H5 | ]. split; [ exact H6 | ]. split; [ exact H7 | ].
  split; [ exact H8 | exact G ].
Defined.

(** ** C6: unregistered paths *)

(** C6.  A path that is not in the route table resolves to the ["home"]
    route, and [loadRoute] does for it exactly what it does for ["home"]: the
    same completion and the same final world.  So do [navigateTo], which
    strips the leading slashes first (the hash it writes apart), and
    [handleRoute], which reads the path off the hash.  No error is raised
    whenever a navigation to ["home"] raises none, in particular on a page
    with a container. *)
Theorem unregistered_path_is_home env q w :
  defineRoutes !! q = None ->
  resolve q = Some home_route /\
  resolve "home" = Some home_route /\
  loadRoute env q w = loadRoute env "home" w /\
  (forall p,
     strip_leading_slashes p = q ->
     navigateTo env p false w = navigateTo env "home" false w /\
     navigateTo env p true w =
       bind (setHash (hash_of q)) (fun _ => loadRoute env "home") w) /\
  (hash_path (locationHash w) = q -> handleRoute env w = loadRoute env "home" w) /\
  (is_Some (appContainer w) \/ quiet env ->
   fst (loadRoute env q w) = Normal tt /\
   forall p b, strip_leading_slashes p = q -> fst (navigateTo env p b w) = Normal tt).
Proof.
  intros Hnone.
  assert (resolve q = Some home_route) as Hres by (by apply resolve_unregistered).
  assert (resolve "home" = Some home_route) as Hhome
    by (apply resolve_registered, defineRoutes_home).
  assert (forall w0, loadRoute env q w0 = loadRoute env "home" w0) as Hsame.
  { intros w0. unfold loadRoute. by rewrite Hres, Hhome. }
  split; [ exact Hres | ]. split; [ exact Hhome | ]. split; [ apply Hsame | ].
  split; [ | split ].
  - intros p <-. split.
    + unfold navigateTo, bind, ret. cbn. apply Hsame.
    + unfold navigateTo, bind.
      destruct (setHash _ w) as [[[] | e] w1]; [ apply Hsame | done ].
  - intros <-. unfold handleRoute, hash_path, bind, get. apply Hsame.
  - intros Hok. split; [ by apply loadRoute_returns | ].
    intros p [ | ] <-.
    + unfold navigateTo, bind, setHash, modify, emit. cbn [fst snd].
      apply loadRoute_returns. by destruct w.
    + unfold navigateTo, bind, ret. by apply loadRoute_returns.
Qed.

Lemma unregistered_path_is_home_witness :
  defineRoutes !! "unknown-page" = None /\
  strip_leading_slashes "/unknown-page" = "unknown-page" /\
  loadRoute env_ok "unknown-page" fresh = loadRoute env_ok "home" fresh /\
  navigateTo env_ok "/unknown-page" false fresh = navigateTo env_ok "home" false fresh /\
  fst (navigateTo env_ok "/unknown-page" true fresh) = Normal tt.
Proof.
  assert (defineRoutes !! "unknown-page" = None) as H by (vm_compute; reflexivity).
  assert (strip_leading_slashes "/unknown-page" = "unknown-page") as Hs by reflexivity.
  split; [ exact H | ]. split; [ exact Hs | ].
  destruct (unregistered_path_is_home env_ok "unknown-page" fresh H)
    as (_ & _ & H1 & H2 & _ & H3).
  split; [ exact H1 | ].
  split; [ exact (proj1 (H2 "/unknown-page" Hs)) | ].
  apply (proj2 (H3 (or_introl (ex_intro _ _ eq_refl)))). exact Hs.
Defined.

(** The scenario of the unknown page: it renders the home fragment. *)
Example unknown_page_renders_home :
  innerHTML <$> appContainer (snd (navigateTo env_ok "/unknown-page" true fresh))
    = Some "<h1>partials/home.html</h1>" /\
  currentRoute (snd (navigateTo env_ok "/unknown-page" true fresh)) = Some "home" /\
  locationHash (snd (navigateTo env_ok "/unknown-page" true fresh)) = "#/unknown-page".
Proof. vm_compute. repeat split; reflexivity. Qed.

(** ** C7: cleanup and the error handler *)

(** What holds of C7 on every exit path is [loadRoute_hides_loading]; what
    holds when the page has an [#app] element is [loadRoute_returns].
    Without the element the handler itself throws. *)
Lemma loadRoute_rejects_without_app env p r e w :
  resolve p = Some r -> currentRoute w <> Some (path r) ->
  appContainer w = None ->
  fst (loadRoute_try env r (snd (showLoading w))) = Throw e ->
  fst (loadRoute env p w) = Throw (NullDeref "appContainer").
Proof.
  intros Hr Hne Happ Hthrow.
  destruct (loadRoute_navigates env p r w Hr Hne) as (content & wl & Hl & Ht & ->).
  rewrite Ht in Hthrow.
  pose proof (evolves_app _ _ (showLoading_evolves w)) as H0.
  pose proof (evolves_app _ _ (loadComponent_evolves env (component r) (snd (showLoading w)))) as H1.
  pose proof (evolves_app _ _ (after_load_evolves env r content wl)) as H2.
  rewrite Hl in H1. cbn [snd] in H1.
  destruct (after_load env r content wl) as [[[] | e'] wa]; [ done | ].
  cbn [fst snd] in *. rewrite loadRoute_catch_eq.
  destruct (appContainer wa) as [c | ] eqn:Ha; [ | reflexivity ].
  assert (is_Some (appContainer w)) as [c' Hc'] by (apply H0, H1, H2; eauto).
  congruence.
Qed.

(** C7, at the failing input.  On a page without [#app], a navigation to
    ["investors"] whose chart hook throws: the handler dereferences the null
    container, [loadRoute] hides the loading indicator and then throws
    instead of returning.  On the page with [#app] the same navigation
    returns normally. *)
Theorem loadRoute_throws_on_page_without_app :
  resolve "investors" = Some investors_route /\
  fst (loadRoute_try env_charts_throw investors_route (snd (showLoading fresh_no_app)))
    = Throw (Rejected "initializeCharts") /\
  fst (loadRoute env_charts_throw "investors" fresh_no_app)
    = Throw (NullDeref "appContainer") /\
  loadingElement (snd (loadRoute env_charts_throw "investors" fresh_no_app))
    = Some "none" /\
  fst (loadRoute env_charts_throw "investors" fresh) = Normal tt.
Proof. vm_compute. repeat split; reflexivity. Qed.

(** ** C8: the order of the phases *)

(** C8.  In a navigation that passes the guard, the effects are those of
    showing the indicator, then those of the [try] block, then those of the
    handler and of hiding the indicator.  Every effect of the [try] block
    belongs to one of the five phases and no effect of a later phase precedes
    one of an earlier phase, whether the block completes or is cut short.  When
    it completes, its effects are the load's, then the title and the active
    link, then the render (when there is a container), then the state update,
    then the hooks and the page view; only hiding the indicator follows. *)
Theorem loadRoute_phases_in_order env p r w :
  resolve p = Some r ->
  currentRoute w <> Some (path r) ->
  let w0 := snd (showLoading w) in
  let wl := snd (loadComponent env (component r) w0) in
  let wt := snd (loadRoute_try env r w0) in
  let w' := snd (loadRoute env p w) in
  emitted w w' = emitted w w0 ++ emitted w0 wt ++ emitted wt w' /\
  Forall (fun e => is_Some (phase_of e)) (emitted w0 wt) /\
  StronglySorted not_after (emitted w0 wt) /\
  (fst (loadRoute_try env r w0) = Normal tt ->
   exists content,
     fst (loadComponent env (component r) w0) = Normal content /\
     Forall (fun e => phase_of e = Some Load) (emitted w0 wl) /\
     emitted w0 wt =
       emitted w0 wl
         ++ [ETitle (fullTitle (title r)); EActiveNav (path r)]
         ++ match appContainer w with
            | Some _ => render_events content
            | None => []
            end
         ++ [ECurrentRoute (path r)]
         ++ hook_events (component r)
         ++ (if gtag_defined env then [EPageView (title r)] else []) /\
     emitted wt w' = match loadingElement w with
                     | Some _ => [ELoading "none"]
                     | None => []
                     end).
Proof.
  intros Hr Hne w0 wl wt w'.
  destruct (loadRoute_stages env p r w Hr Hne)
    as (content & wl' & Hl & Ht & E0 & E1 & E2 & E3 & _ & _ & _ & Hdone & _).
  fold w0 w' in Hl, Ht, E0, E1, E3, Hdone.
  assert (wl = wl') as <- by (subst wl; by rewrite Hl).
  assert (wt = snd (after_load env r content wl)) as Hwt by (subst wt; by rewrite Ht).
  rewrite <- Hwt in E2, E3, Hdone.
  assert (evolves w0 wt) as E02 by (etransitivity; eassumption).
  split.
  { rewrite (emitted_trans w w0 w' E0) by (etransitivity; eassumption).
    by rewrite (emitted_trans w0 wt w' E02 E3). }
  destruct (loadRoute_try_events env r w0) as [Hall Hsorted].
  split; [ exact Hall | ]. split; [ exact Hsorted | ].
  intros Hn. exists content.
  split; [ by rewrite Hl | ].
  split; [ apply loadComponent_events | ].
  rewrite Ht in Hn.
  pose proof (after_load_normal env r content wl Hn) as (Htr & _).
  rewrite <- Hwt in Htr.
  pose proof (showLoading_frame w) as (_ & _ & _ & _ & Ha0 & _).
  pose proof (loadComponent_frame env (component r) w0) as (_ & Ha1 & _).
  fold wl in Ha1.
  assert (appContainer wl = appContainer w) as Happ by (by rewrite Ha1).
  rewrite Happ in Htr.
  split.
  - rewrite (emitted_trans w0 wl wt E1 E2). f_equal.
    apply emitted_app. exact Htr.
  - rewrite (Hdone Hn). rewrite hideLoading_eq. cbn [snd].
    pose proof (evolves_loading _ _ E02) as H02.
    pose proof (evolves_loading _ _ E0) as H00.
    destruct (loadingElement wt) as [d | ] eqn:Hd,
             (loadingElement w) as [d' | ] eqn:Hd'.
    + apply emitted_app. by destruct wt.
    + exfalso. assert (is_Some (@None string)) as [? [=]]. apply H00, H02. eauto.
    + exfalso. assert (is_Some (@None string)) as [? [=]]. apply H02, H00. eauto.
    + apply emitted_refl.
Qed.

Lemma loadRoute_phases_in_order_witness :
  resolve "about" = Some (mkRoute "about" "about" "About Us") /\
  currentRoute fresh <> Some "about" /\
  StronglySorted not_after
    (emitted (snd (showLoading fresh))
       (snd (loadRoute_try env_ok (mkRoute "about" "about" "About Us")
               (snd (showLoading fresh))))).
Proof.
  assert (resolve "about" = Some (mkRoute "about" "about" "About Us")) as H1
    by (vm_compute; reflexivity).
  assert (currentRoute fresh <> Some "about") as H2 by discriminate.
  split; [ exact H1 | ]. split; [ exact H2 | ].
  exact (proj1 (proj2 (proj2
    (loadRoute_phases_in_order env_ok "about" _ fresh H1 H2)))).
Defined.

(** The scenario of the first visit of ["about"]: one request, the title, and
    the phases in their order. *)
Example about_scenario :
  emitted fresh at_about =
    [ELoading "block"; EFetch "partials/about.html"; ECacheSet "about";
     ETitle "About Us | Kattali Textile Ltd."; EActiveNav "about";
     EFadeOut; EInnerHTML "<h1>partials/about.html</h1>"; EContentAnimations;
     EFadeIn; EFocus; ECurrentRoute "about";
     EHook initializeKineticText; EHook initializeScrollAnimations;
     EHook initializeGenericComponents; EHook initializeTiltCards;
     EPageView "About Us"; ELoading "none"] /\
  documentTitle at_about = "About Us | Kattali Textile Ltd." /\
  currentRoute at_about = Some "about" /\
  requests at_about = 1.
Proof. vm_compute. repeat split; reflexivity. Qed.

(** ** C9: a prefetch whose fetch fails *)

(** C9.  A prefetch of a registered path whose fetch fails returns normally
    and adds the path to the prefetched set although nothing was cached;
    from then on every [prefetchRoute] of that path, at any later point of
    the session, changes nothing; a navigation to the path requests the
    fragment again. *)
Theorem failed_prefetch_marks_the_path env p r w :
  defineRoutes !! p = Some r ->
  p ∉ prefetchedRoutes w ->
  cache w !! component r = None ->
  fetch_fails (network env (requests w) (partial_url (component r))) ->
  let w1 := snd (prefetchRoute env p w) in
  fst (prefetchRoute env p w) = Normal tt /\
  p ∈ prefetchedRoutes w1 /\
  cache w1 = cache w /\
  requests w1 = S (requests w) /\
  (forall acts,
     prefetchRoute env p (session env acts w1) = (Normal tt, session env acts w1)) /\
  (currentRoute w1 <> Some (path r) ->
   requests (snd (loadRoute env p w1)) = S (requests w1) /\
   EFetch (partial_url (component r)) ∈ emitted w1 (snd (loadRoute env p w1))).
Proof.
  intros Hp Hnin Hmiss Hfail w1. subst w1.
  rewrite prefetchRoute_eq, decide_False, Hp by done.
  rewrite (loadComponent_miss_fail env _ w Hmiss Hfail). cbn [fst snd].
  set (w1 := set_trace _ (set_prefetchedRoutes _ _)).
  assert (p ∈ prefetchedRoutes w1) as Hin by (subst w1; cbn; set_solver).
  assert (cache w1 = cache w) as Hcache by (by destruct w).
  split; [ reflexivity | ]. split; [ exact Hin | ]. split; [ exact Hcache | ].
  split; [ by destruct w | ]. split.
  - intros acts. rewrite prefetchRoute_eq, decide_True; [ reflexivity | ].
    by apply (evolves_prefetched _ _ (session_evolves env acts w1)).
  - intros Hne.
    pose proof (resolve_registered p r Hp) as Hr.
    destruct (loadRoute_stages env p r w1 Hr Hne)
      as (content & wl & Hl & _ & E0 & E1 & E2 & E3 & _ & _ & Hrq & _).
    pose proof (showLoading_frame w1) as (_ & Hc0 & Hr0 & _).
    assert (cache (snd (showLoading w1)) !! component r = None) as Hmiss0
      by (by rewrite Hc0, Hcache).
    split.
    + rewrite Hrq.
      pose proof (loadComponent_requests env (component r) (snd (showLoading w1))) as H.
      rewrite Hl, Hmiss0 in H. cbn [snd] in H. by rewrite H, Hr0.
    + pose proof (loadComponent_miss_fetches env _ _ Hmiss0) as Hf.
      rewrite Hl in Hf. cbn [snd] in Hf.
      rewrite (emitted_trans w1 (snd (showLoading w1)) _ E0)
        by (etransitivity; [ exact E1 | etransitivity; [ exact E2 | exact E3 ] ]).
      rewrite (emitted_trans (snd (showLoading w1)) wl _ E1)
        by (etransitivity; [ exact E2 | exact E3 ]).
      apply elem_of_app. right. apply elem_of_app. by left.
Qed.

Lemma failed_prefetch_marks_the_path_witness :
  defineRoutes !! "contact" = Some (mkRoute "contact" "contact" "Contact Us") /\
  ("contact" ∉ prefetchedRoutes fresh) /\
  cache fresh !! "contact" = None /\
  fetch_fails (network env_500 (requests fresh) (partial_url "contact")) /\
  "contact" ∈ prefetchedRoutes (snd (prefetchRoute env_500 "contact" fresh)) /\
  cache (snd (prefetchRoute env_500 "contact" fresh)) = cache fresh.
Proof.
  assert (defineRoutes !! "contact" = Some (mkRoute "contact" "contact" "Contact Us"))
    as H1 by (vm_compute; reflexivity).
  assert ("contact" ∉ prefetchedRoutes fresh) as H2 by (cbn; set_solver).
  assert (cache fresh !! "contact" = None) as H3 by reflexivity.
  assert (fetch_fails (network env_500 (requests fresh) (partial_url "contact"))) as H4
    by (left; reflexivity).
  repeat (split; [ assumption | ]).
  destruct (failed_prefetch_marks_the_path env_500 "contact" _ fresh H1 H2 H3 H4)
    as (_ & G2 & G3 & _).
  split; assumption.
Defined.

(** ** C10: the state after an error in the [try] block *)

(** C10, counterexample.  From the home page, a navigation to ["investors"]
    whose chart hook throws reaches the catch block; the container shows the
    error block, but the field names the new route, not the previous page.
    A navigation back to the previous page is then not idempotent: it
    renders the home fragment over the error block. *)
Lemma hook_error_leaves_the_new_route_current :
  currentRoute at_home = Some "home" /\
  fst (loadRoute_try env_charts_throw investors_route (snd (showLoading at_home)))
    = Throw (Rejected "initializeCharts") /\
  currentRoute (snd (loadRoute env_charts_throw "investors" at_home))
    = Some "investors" /\
  innerHTML <$> appContainer (snd (loadRoute env_charts_throw "investors" at_home))
    = Some errorContent /\
  innerHTML <$>
    appContainer (snd (loadRoute env_charts_throw "home"
                         (snd (loadRoute env_charts_throw "investors" at_home))))
    = Some "<h1>partials/home.html</h1>".
Proof. vm_compute. repeat split; reflexivity. Qed.

(** Only the presence of the container matters to [throws_before_update]. *)
Lemma throws_before_update_app env w w' :
  (is_Some (appContainer w) <-> is_Some (appContainer w')) ->
  throws_before_update env w = throws_before_update env w'.
Proof.
  unfold throws_before_update.
  destruct (appContainer w), (appContainer w'); intros [H1 H2]; try reflexivity.
  - destruct H1 as [? [=]]; eauto.
  - destruct H2 as [? [=]]; eauto.
Qed.

(** C10, as amended.  When the [try] block of a navigation throws on a page
    with a container, [loadRoute] returns normally with the error block in
    the container.  The field is left as it was if the exception came from
    before the state update (title, active link, render); if it came from a
    hook or from the tracker, the field already names the new route.  Either
    way, a navigation to the route the field names is then a no-op, which
    leaves the error block in place. *)
Theorem route_error_state env p r c e w :
  resolve p = Some r ->
  currentRoute w <> Some (path r) ->
  appContainer w = Some c ->
  fst (loadRoute_try env r (snd (showLoading w))) = Throw e ->
  let w' := snd (loadRoute env p w) in
  fst (loadRoute env p w) = Normal tt /\
  innerHTML <$> appContainer w' = Some errorContent /\
  currentRoute w' =
    (if throws_before_update env w then currentRoute w else Some (path r)) /\
  (forall q rq,
     resolve q = Some rq -> currentRoute w' = Some (path rq) ->
     loadRoute env q w' = (Normal tt, w')).
Proof.
  intros Hr Hne Happ Hthrow w'.
  pose proof (loadRoute_returns env p w (or_introl (ex_intro _ c Happ))) as Hret.
  split; [ exact Hret | ].
  destruct (loadRoute_stages env p r w Hr Hne)
    as (content & wl & Hl & Ht & E0 & E1 & E2 & _ & Hcur & _ & _ & _ & Herr).
  fold w' in Hcur, Herr.
  rewrite Ht in Hthrow. specialize (Herr e Hthrow).
  pose proof (after_load_currentRoute env r content wl) as Hc.
  assert (evolves w wl) as E by (etransitivity; eassumption).
  rewrite <- (throws_before_update_app env w wl (evolves_app _ _ E)) in Hc.
  pose proof (showLoading_frame w) as (Hc0 & _).
  pose proof (loadComponent_frame env (component r) (snd (showLoading w))) as (Hc1 & _).
  rewrite Hl in Hc1. cbn [snd] in Hc1.
  assert (currentRoute wl = currentRoute w) as Hcw by (by rewrite Hc1).
  rewrite Hcw in Hc.
  split; [ | split ].
  - rewrite Herr.
    pose proof (hideLoading_frame (snd (loadRoute_catch e (snd (after_load env r content wl)))))
      as (_ & _ & _ & _ & -> & _).
    pose proof (loadRoute_catch_frame e (snd (after_load env r content wl)))
      as (_ & _ & _ & _ & _ & -> & _).
    assert (is_Some (appContainer (snd (after_load env r content wl)))) as [c' ->].
    { apply (evolves_app _ _ E2), (evolves_app _ _ E). eauto. }
    reflexivity.
  - by rewrite Hcur, Hc.
  - intros q rq Hq Hsame. by apply loadRoute_same_path with rq.
Qed.

Lemma route_error_state_witness :
  resolve "investors" = Some investors_route /\
  currentRoute at_home <> Some (path investors_route) /\
  appContainer at_home
    = Some (mkContainer "<h1>partials/home.html</h1>" "1" "translateY(0)") /\
  fst (loadRoute_try env_charts_throw investors_route (snd (showLoading at_home)))
    = Throw (Rejected "initializeCharts") /\
  innerHTML <$> appContainer (snd (loadRoute env_charts_throw "investors" at_home))
    = Some errorContent /\
  currentRoute (snd (loadRoute env_charts_throw "investors" at_home))
    = (if throws_before_update env_charts_throw at_home
       then currentRoute at_home else Some (path investors_route)).
Proof.
  assert (resolve "investors" = Some investors_route) as H1 by (vm_compute; reflexivity).
  assert (currentRoute at_home <> Some (path investors_route)) as H2
    by (vm_compute; discriminate).
  assert (appContainer at_home
            = Some (mkContainer "<h1>partials/home.html</h1>" "1" "translateY(0)")) as H3
    by (vm_compute; reflexivity).
  assert (fst (loadRoute_try env_charts_throw investors_route (snd (showLoading at_home)))
            = Throw (Rejected "initializeCharts")) as H4 by (vm_compute; reflexivity).
  repeat (split; [ assumption | ]).
  destruct (route_error_state env_charts_throw "investors" _ _ _ at_home H1 H2 H3 H4)
    as (_ & G2 & G3 & _).
  split; assumption.
Defined.

(** * Further properties of the router *)

(** ** What a navigation leaves alone *)

Section Frames.
Context (env : Env).

Lemma showLoading_keeps w :
  prefetchedRoutes (snd (showLoading w)) = prefetchedRoutes w /\
  locationHash (snd (showLoading w)) = locationHash w.
Proof. rewrite showLoading_eq. by destruct w as [? ? ? [d | ] ? ? ? ? ?]. Qed.

Lemma hideLoading_keeps w :
  prefetchedRoutes (snd (hideLoading w)) = prefetchedRoutes w /\
  locationHash (snd (hideLoading w)) = locationHash w.
Proof. rewrite hideLoading_eq. by destruct w as [? ? ? [d | ] ? ? ? ? ?]. Qed.

Lemma loadRoute_catch_keeps e w :
  prefetchedRoutes (snd (loadRoute_catch e w)) = prefetchedRoutes w /\
  locationHash (snd (loadRoute_catch e w)) = locationHash w.
Proof. rewrite loadRoute_catch_eq. by destruct w as [? ? ? ? [c | ] ? ? ? ?]. Qed.

Lemma after_load_keeps r content w :
  prefetchedRoutes (snd (after_load env r content w)) = prefetchedRoutes w /\
  locationHash (snd (after_load env r content w)) = locationHash w.
Proof. destruct w. js_unfold_rest. js_run; done. Qed.

(** The loader touches the cache, the request counter and the trace only;
    the cache gains at most the entry of its component. *)
Lemma loadComponent_keeps c w :
  let w' := snd (loadComponent env c w) in
  prefetchedRoutes w' = prefetchedRoutes w /\
  locationHash w' = locationHash w /\
  (cache w' = cache w \/
   cache w !! c = None /\ exists content, cache w' = <[c := content]> (cache w)).
Proof.
  destruct w as [cur ca pf le ac dt lh rq tr]. js_unfold. cbn.
  destruct (ca !! c) eqn:Hc; cbn; [ by auto | ].
  js_run; repeat split; eauto.
Qed.

(** What [loadRoute] may change of the router's own state: the current route,
    to the path of the resolved route, and the cache, by the entry of its
    component. *)
Lemma loadRoute_keeps p r w :
  resolve p = Some r ->
  let w' := snd (loadRoute env p w) in
  prefetchedRoutes w' = prefetchedRoutes w /\
  locationHash w' = locationHash w /\
  (currentRoute w' = currentRoute w \/ currentRoute w' = Some (path r)) /\
  (cache w' = cache w \/
   cache w !! component r = None /\
   exists content, cache w' = <[component r := content]> (cache w)).
Proof.
  intros Hr. cbn zeta.
  destruct (decide (currentRoute w = Some (path r))) as [Hc | Hne].
  { rewrite (loadRoute_same_path env p r w Hr Hc). cbn. auto. }
  destruct (loadRoute_stages env p r w Hr Hne)
    as (content & wl & Hl & _ & _ & _ & _ & _ & Hcur & Hca & _ & Hn & He).
  pose proof (showLoading_keeps w) as [Hp0 Hh0].
  pose proof (showLoading_frame w) as (Hc0 & Hca0 & _).
  pose proof (loadComponent_keeps (component r) (snd (showLoading w))) as (Hp1 & Hh1 & Hca1).
  pose proof (loadComponent_frame env (component r) (snd (showLoading w))) as (Hc1 & _).
  rewrite Hl in Hp1, Hh1, Hca1, Hc1. cbn [snd] in *.
  pose proof (after_load_keeps r content wl) as [Hp2 Hh2].
  pose proof (after_load_currentRoute env r content wl) as Hc2.
  assert (prefetchedRoutes (snd (loadRoute env p w)) = prefetchedRoutes w /\
          locationHash (snd (loadRoute env p w)) = locationHash w) as [Hp Hh].
  { destruct (after_load env r content wl) as [[[] | e] wa] eqn:Ha; cbn [fst snd] in *.
    - rewrite (Hn eq_refl).
      pose proof (hideLoading_keeps wa) as [-> ->]. by rewrite Hp2, Hh2, Hp1, Hh1.
    - rewrite (He e eq_refl).
      pose proof (hideLoading_keeps (snd (loadRoute_catch e wa))) as [-> ->].
      pose proof (loadRoute_catch_keeps e wa) as [-> ->].
      by rewrite Hp2, Hh2, Hp1, Hh1. }
  split; [ exact Hp | ]. split; [ exact Hh | ]. split.
  - rewrite Hcur, Hc2. destruct (throws_before_update env wl); [ left | by right ].
    by rewrite Hc1, Hc0.
  - rewrite Hca. by rewrite Hca0 in Hca1.
Qed.


End Frames.

(** ** X1: keyboard shortcuts *)



(** ** X2: prefetching behind the page *)

(** X2.  A prefetch, whatever the path and whatever the network answers,
    returns normally and leaves what the visitor sees as it was: the current
    route, the content, the title, the loading indicator and the hash. *)
Theorem prefetch_leaves_the_page env p w :
  fst (prefetchRoute env p w) = Normal tt /\
  same_page w (snd (prefetchRoute env p w)).
Proof.
  rewrite prefetchRoute_eq. unfold same_page.
  case_decide; [ done | ]. destruct (defineRoutes !! p) as [r | ]; [ | done ].
  cbn [fst snd]. split; [ reflexivity | ].
  pose proof (loadComponent_frame env (component r) w) as (H1 & H2 & H3 & _ & H5).
  pose proof (loadComponent_keeps env (component r) w) as (_ & H6 & _).
  by destruct (snd (loadComponent env (component r) w)).
Qed.

(** ** X3: the critical routes *)

Lemma prefetchRoute_adds env p r w :
  defineRoutes !! p = Some r -> p ∈ prefetchedRoutes (snd (prefetchRoute env p w)).
Proof.
  intros Hp. rewrite prefetchRoute_eq. case_decide; [ done | ]. rewrite Hp. cbn.
  set_solver.
Qed.

Lemma prefetchRoute_requests env p w :
  requests (snd (prefetchRoute env p w)) <= S (requests w).
Proof.
  rewrite prefetchRoute_eq. case_decide; cbn [snd]; [ lia | ].
  destruct (defineRoutes !! p) as [r | ]; cbn [snd]; [ | lia ].
  unfold set_trace, set_prefetchedRoutes. cbn [requests].
  rewrite loadComponent_requests. destruct (cache w !! component r); lia.
Qed.

Lemma prefetchAll_normal env paths w :
  fst (prefetchAll env paths w) = Normal tt /\
  evolves w (snd (prefetchAll env paths w)) /\
  same_page w (snd (prefetchAll env paths w)) /\
  requests (snd (prefetchAll env paths w)) <= requests w + length paths.
Proof.
  revert w. induction paths as [ | p paths IH ]; intros w; cbn.
  - split; [ done | ]. split; [ reflexivity | ]. split; [ by unfold same_page | lia ].
  - unfold bind.
    pose proof (prefetchRoute_requests env p w) as Hle.
    destruct (prefetch_leaves_the_page env p w) as [Hn Hsame].
    pose proof (prefetchRoute_evolves env p w) as Hev.
    destruct (prefetchRoute env p w) as [[[] | e] w1]; cbn in *; [ | discriminate ].
    destruct (IH w1) as (Hn' & Hev' & Hsame' & Hle').
    split; [ exact Hn' | ]. split; [ by etrans | ]. split; [ | lia ].
    unfold same_page in *. intuition congruence.
Qed.

Lemma prefetchAll_adds env paths w p :
  Forall (fun q => is_Some (defineRoutes !! q)) paths ->
  p ∈ paths -> p ∈ prefetchedRoutes (snd (prefetchAll env paths w)).
Proof.
  revert w. induction paths as [ | q paths IH ]; intros w Hreg Hin;
    [ by apply elem_of_nil in Hin | ].
  apply Forall_cons in Hreg as [[r Hq] Hreg]. cbn. unfold bind.
  pose proof (prefetchRoute_adds env q r w Hq) as Hadd.
  destruct (prefetch_leaves_the_page env q w) as [Hn _].
  destruct (prefetchRoute env q w) as [[[] | e] w1]; cbn in *; [ | discriminate ].
  apply elem_of_cons in Hin as [-> | Hin]; [ | by apply IH ].
  destruct (prefetchAll_normal env paths w1) as (_ & Hev & _).
  by apply (evolves_prefetched _ _ Hev).
Qed.

(** X3.  Once its timer has fired, the loop over the critical routes returns
    normally whatever the network answers, leaves the page the visitor sees
    as it was, makes at most three requests, and ends with "about", "contact"
    and "rfq" in the prefetched set, fetched or not. *)
Theorem critical_routes_end_up_prefetched env w :
  fst (prefetchCriticalRoutes env w) = Normal tt /\
  same_page w (snd (prefetchCriticalRoutes env w)) /\
  requests (snd (prefetchCriticalRoutes env w)) <= requests w + 3 /\
  {[ "about"; "contact"; "rfq" ]} ⊆ prefetchedRoutes (snd (prefetchCriticalRoutes env w)).
Proof.
  destruct (prefetchAll_normal env criticalRoutes w) as (Hn & _ & Hsame & Hle).
  split; [ exact Hn | ]. split; [ exact Hsame | ]. split; [ exact Hle | ].
  assert (Forall (fun q => is_Some (defineRoutes !! q)) criticalRoutes) as Hreg
    by (repeat constructor; vm_compute; eauto).
  intros p Hp. apply (prefetchAll_adds env criticalRoutes w p Hreg).
  unfold criticalRoutes.
  rewrite !elem_of_union, !elem_of_singleton in Hp. rewrite !elem_of_cons. tauto.
Qed.

(** ** X4: requests per navigation *)

(** X4.  A navigation makes at most one request: exactly one when it passes
    the guard and the fragment of the resolved route is not cached, none
    otherwise; whether anything throws along the way does not matter. *)
Theorem loadRoute_request_count env p r w :
  resolve p = Some r ->
  requests (snd (loadRoute env p w)) =
    if decide (currentRoute w = Some (path r)) then requests w
    else match cache w !! component r with
         | Some _ => requests w
         | None => S (requests w)
         end.
Proof.
  intros Hr. case_decide as Hc.
  - by rewrite (loadRoute_same_path env p r w Hr Hc).
  - destruct (loadRoute_stages env p r w Hr Hc)
      as (content & wl & Hl & _ & _ & _ & _ & _ & _ & _ & -> & _).
    pose proof (loadComponent_requests env (component r) (snd (showLoading w))) as H.
    pose proof (showLoading_frame w) as (_ & Hc0 & Hr0 & _).
    rewrite Hl in H. cbn [snd] in H. by rewrite H, Hc0, Hr0.
Qed.

Lemma loadRoute_request_count_witness :
  resolve "/nowhere" = Some home_route /\
  requests (snd (loadRoute env_ok "/nowhere" fresh)) = 1 /\
  requests (snd (loadRoute env_ok "/nowhere" at_home)) = 1 /\
  requests (snd (loadRoute env_ok "/nowhere" at_root)) = 1.
Proof.
  assert (resolve "/nowhere" = Some home_route) as H by (vm_compute; reflexivity).
  split; [ exact H | ].
  rewrite (loadRoute_request_count env_ok "/nowhere" home_route fresh H).
  rewrite (loadRoute_request_count env_ok "/nowhere" home_route at_home H).
  rewrite (loadRoute_request_count env_ok "/nowhere" home_route at_root H).
  vm_compute. auto.
Defined.

(** ** X5: a page that failed to load *)



(** ** X6: the document title *)

(** The template starts with its placeholder. *)
Lemma fullTitle_eq t : fullTitle t = t +:+ " | Kattali Textile Ltd.".
Proof. reflexivity. Qed.

(** X6.  A navigation whose [try] block completes leaves the document title
    at the title of the resolved route followed by [" | Kattali Textile
    Ltd."], and the title was written once, before the content was
    replaced. *)
Theorem completed_navigation_sets_the_title env p r w :
  resolve p = Some r ->
  currentRoute w <> Some (path r) ->
  fst (loadRoute_try env r (snd (showLoading w))) = Normal tt ->
  let w' := snd (loadRoute env p w) in
  documentTitle w' = title r +:+ " | Kattali Textile Ltd." /\
  ETitle (title r +:+ " | Kattali Textile Ltd.") ∈ emitted w w'.
Proof.
  intros Hr Hne Hn. cbn zeta.
  destruct (loadRoute_stages env p r w Hr Hne)
    as (content & wl & Hl & Ht & E0 & E1 & E2 & E3 & _ & _ & _ & Hdone & _).
  rewrite Ht in Hn.
  pose proof (after_load_normal env r content wl Hn) as (Htr & _ & _ & Htitle).
  rewrite (Hdone Hn).
  pose proof (hideLoading_frame (snd (after_load env r content wl)))
    as (_ & _ & _ & _ & _ & -> & _).
  rewrite <- fullTitle_eq. split; [ exact Htitle | ].
  rewrite <- (Hdone Hn).
  rewrite (emitted_trans w wl _) by (etransitivity; eassumption).
  rewrite (emitted_trans wl _ _ E2 E3), (emitted_app wl _ _ Htr).
  apply elem_of_app. right. apply elem_of_app. left. apply elem_of_cons. by left.
Qed.

Lemma completed_navigation_sets_the_title_witness :
  resolve "rfq" = Some (mkRoute "rfq" "rfq" "Request for Quote") /\
  currentRoute fresh <> Some "rfq" /\
  fst (loadRoute_try env_ok (mkRoute "rfq" "rfq" "Request for Quote")
         (snd (showLoading fresh))) = Normal tt /\
  documentTitle (snd (loadRoute env_ok "rfq" fresh))
    = "Request for Quote | Kattali Textile Ltd.".
Proof.
  assert (resolve "rfq" = Some (mkRoute "rfq" "rfq" "Request for Quote")) as H1
    by (vm_compute; reflexivity).
  assert (currentRoute fresh <> Some "rfq") as H2 by discriminate.
  assert (fst (loadRoute_try env_ok (mkRoute "rfq" "rfq" "Request for Quote")
                 (snd (showLoading fresh))) = Normal tt) as H3 by (vm_compute; reflexivity).
  do 3 (split; [ assumption | ]).
  pose proof (completed_navigation_sets_the_title env_ok "rfq" _ fresh H1 H2 H3) as G.
  cbv zeta in G. destruct G as (G & _). exact G.
Defined.

(** ** X7: one click, two loads *)













(** ** X8: the render that ends last *)

(** X8.  On a page with a container, [renderContent] fades the container out
    and waits for its timer; when the timer fires it writes its own markup
    over whatever the container shows by then and fades it in.  So of two
    renders that overlap, the one whose timer fires last decides what the
    page shows. *)
Theorem last_render_wins env content c w :
  appContainer w = Some c ->
  raises env triggerContentAnimations_dom = None ->
  raises env manageFocus_dom = None ->
  exists k,
    renderContentA env content w =
      (Wait WTimer k,
       set_trace (trace w ++ [EFadeOut])
         (set_appContainer (Some (mkContainer (innerHTML c) "0" "translateY(20px)")) w)) /\
    forall w1 c1,
      appContainer w1 = Some c1 ->
      fst (k w1) = Fin (Normal tt) /\
      appContainer (snd (k w1)) = Some (mkContainer content "1" "translateY(0)") /\
      emitted w1 (snd (k w1)) = [EInnerHTML content; EContentAnimations; EFadeIn; EFocus].
Proof.
  intros Happ Hanim Hfocus.
  unfold renderContentA, abind, lift, await, get. cbn [fst snd pbind].
  rewrite Happ. cbn [fst snd pbind write_style modify emit].
  eexists. split; [ destruct w; cbn in *; subst; reflexivity | ].
  intros w1 c1 Happ1. cbn. unfold call. rewrite Hanim, Hfocus. cbn.
  destruct w1 as [cur ca pf le ac dt lh rq tr]. cbn in *. subst ac. cbn.
  split; [ reflexivity | ]. split; [ reflexivity | ].
  emitted_norm. reflexivity.
Qed.

Lemma last_render_wins_witness :
  appContainer fresh = Some (mkContainer "" "1" "") /\
  raises env_ok triggerContentAnimations_dom = None /\
  raises env_ok manageFocus_dom = None /\
  exists k,
    fst (renderContentA env_ok "<p>new</p>" fresh) = Wait WTimer k /\
    appContainer (snd (k at_about)) = Some (mkContainer "<p>new</p>" "1" "translateY(0)").
Proof.
  assert (appContainer fresh = Some (mkContainer "" "1" "")) as H1 by reflexivity.
  assert (raises env_ok triggerContentAnimations_dom = None) as H2 by reflexivity.
  assert (raises env_ok manageFocus_dom = None) as H3 by reflexivity.
  do 3 (split; [ assumption | ]).
  destruct (last_render_wins env_ok "<p>new</p>" _ fresh H1 H2 H3) as (k & Hk & Hres).
  exists k. split; [ by rewrite Hk | ].
  assert (appContainer at_about
            = Some (mkContainer "<h1>partials/about.html</h1>" "1" "translateY(0)")) as H4
    by (vm_compute; reflexivity).
  destruct (Hres at_about _ H4) as (_ & G & _). exact G.
Defined.

(** ** X9: a stale navigation *)


(** ** X10: sessions among the schedules *)

(** X10.  Left alone, a call with waits does what the method run to its end
    does: resumed at once at each wait, [loadComponent], [loadRoute],
    [prefetchRoute] and the call of each listener end in the same completion
    and the same world.  So every session is a schedule: the one on which
    each call is resumed to its end before the next listener fires. *)
Theorem sessions_are_schedules env :
  (forall c w, uninterrupted (loadComponentA env c) w = loadComponent env c w) /\
  (forall p w, uninterrupted (loadRouteA env p) w = loadRoute env p w) /\
  (forall p w, uninterrupted (prefetchRouteA env p) w = prefetchRoute env p w) /\
  (forall a w, uninterrupted (start env a) w = step env a w) /\
  (forall acts w, exists ticks, run env ticks (boot w) = boot (session env acts w)).
Proof.
  split; [ apply uninterrupted_loadComponentA | ].
  split; [ apply uninterrupted_loadRouteA | ].
  split; [ apply uninterrupted_prefetchRouteA | ].
  split; [ apply uninterrupted_start | apply session_is_a_schedule ].
Qed.
